(** * ETLJira: extraction, field renaming and storage of Jira issues

    A shallow embedding of the Python sources under [ETLJira/src]:
    - [transform/transform.py]  (class [Transform]),
    - [pipeline/pipeline.py]    (class [Pipeline]),
    - [extract/extract.py]      (class [Extract]),
    - [load/load.py]            (class [Load]),
    - [utils/jira_client.py]    (class [JiraClient]),
    - [utils/file_manager.py]   (class [FileManager]).

    Python values are the values [json] produces; strings are lists of
    Unicode code points; dictionaries keep their insertion order and are
    association lists.  Functions that raise return in a sum with the
    exception on the left; functions that mutate an argument run in a state
    and exception monad over the objects they can reach. *)

From Stdlib Require Import ZArith List Bool Lia String Ascii.
Import ListNotations.
Open Scope Z_scope.

(** ** Strings *)

Definition codepoint := Z.
Definition str := list codepoint.

(** An ASCII literal as a Python string. *)
Definition u (s : string) : str :=
  List.map (fun a => Z.of_N (N_of_ascii a)) (list_ascii_of_string s).

Definition str_eqb (a b : str) : bool :=
  if list_eq_dec Z.eq_dec a b then true else false.

Lemma str_eqb_eq (a b : str) : str_eqb a b = true <-> a = b.
Proof.
  unfold str_eqb. destruct (list_eq_dec Z.eq_dec a b); split; congruence.
Qed.

Lemma str_eqb_refl (a : str) : str_eqb a a = true.
Proof. now apply str_eqb_eq. Qed.

Lemma str_eqb_neq (a b : str) : str_eqb a b = false <-> a <> b.
Proof.
  unfold str_eqb. destruct (list_eq_dec Z.eq_dec a b); split; congruence.
Qed.

(** [s.startswith(prefix)] *)
Fixpoint startswith (prefix s : str) : bool :=
  match prefix, s with
  | [], _ => true
  | _ :: _, [] => false
  | p :: prefix', c :: s' => (p =? c) && startswith prefix' s'
  end.

(** [needle in hay] for two strings. *)
Fixpoint is_substring (needle hay : str) : bool :=
  startswith needle hay
  || match hay with
     | [] => false
     | _ :: hay' => is_substring needle hay'
     end.

Definition hyphen : codepoint := 45.
Definition underscore : codepoint := 95.

(** The class [\s] of [re] on [str] patterns: the code points for which
    [str.isspace()] holds. *)
Definition is_space (c : codepoint) : bool :=
  ((9 <=? c) && (c <=? 13)) || ((28 <=? c) && (c <=? 32))
  || (c =? 133) || (c =? 160) || (c =? 5760)
  || ((8192 <=? c) && (c <=? 8202))
  || (c =? 8232) || (c =? 8233) || (c =? 8239) || (c =? 8287) || (c =? 12288).

Definition is_hyphen (c : codepoint) : bool := c =? hyphen.

Definition is_upper (c : codepoint) : bool := (65 <=? c) && (c <=? 90).
Definition is_lower (c : codepoint) : bool := (97 <=? c) && (c <=? 122).
Definition is_digit (c : codepoint) : bool := (48 <=? c) && (c <=? 57).

(** The class [[a-zA-Z0-9\-]]. *)
Definition is_word (c : codepoint) : bool :=
  is_lower c || is_upper c || is_digit c || is_hyphen c.

(** The class [[a-z0-9-]] of normalized tokens. *)
Definition is_token_char (c : codepoint) : bool :=
  is_lower c || is_digit c || is_hyphen c.

(** [re.sub(p+, '-', s)] for a character class [p]: every maximal run of
    characters of the class becomes one hyphen.  [in_run] tells that the
    previous character was in the class. *)
Fixpoint sub_runs (p : codepoint -> bool) (in_run : bool) (s : str) : str :=
  match s with
  | [] => []
  | c :: s' =>
      if p c
      then (if in_run then sub_runs p true s' else hyphen :: sub_runs p true s')
      else c :: sub_runs p false s'
  end.

(** [re.sub(r'\s+', '-', s)] *)
Definition sub_spaces (s : str) : str := sub_runs is_space false s.

(** [re.sub(r'[^a-zA-Z0-9\-]', '-', s)] *)
Definition sub_non_word (s : str) : str :=
  List.map (fun c => if is_word c then c else hyphen) s.

(** [re.sub(r'-+', '-', s)] *)
Definition sub_hyphens (s : str) : str := sub_runs is_hyphen false s.

Fixpoint lstrip (p : codepoint -> bool) (s : str) : str :=
  match s with
  | [] => []
  | c :: s' => if p c then lstrip p s' else s
  end.

Fixpoint rstrip (p : codepoint -> bool) (s : str) : str :=
  match s with
  | [] => []
  | c :: s' =>
      match rstrip p s' with
      | [] => if p c then [] else [c]
      | r => c :: r
      end
  end.

(** [s.strip('-')] *)
Definition strip_hyphens (s : str) : str :=
  rstrip is_hyphen (lstrip is_hyphen s).

(** [s.lower()].  It is only applied to [cleaned], which holds nothing but
    [[a-zA-Z0-9-]]; there [str.lower] is the ASCII map below, one code point
    at a time. *)
Definition lower_char (c : codepoint) : codepoint :=
  if is_upper c then c + 32 else c.

Definition lower (s : str) : str := List.map lower_char s.

(** The two functions of the [unicodedata] module that the normalizer calls.
    Their tables are not part of the repository. *)
Class UnicodeData := {
  (** [unicodedata.normalize('NFKD', s)] *)
  nfkd : str -> str;
  (** [unicodedata.combining(c)], the canonical combining class *)
  combining : codepoint -> Z
}.

Definition is_ascii (c : codepoint) : bool := (0 <=? c) && (c <? 128).

(** What the Unicode tables say on ASCII: such strings are their own
    decomposition and hold no combining mark. *)
Class UnicodeAscii (U : UnicodeData) : Prop := {
  nfkd_ascii : forall s, forallb is_ascii s = true -> nfkd s = s;
  combining_ascii : forall c, is_ascii c = true -> combining c = 0
}.

(** ** Python values *)

Set Warnings "-register-all".

(** The values [response.json()] builds.  A number with a fraction has no
    constructor: the code only stores such a value, as it does a [VInt]. *)
Inductive value :=
| VNone
| VBool (b : bool)
| VInt (n : Z)
| VStr (s : str)
| VList (xs : list value)
| VDict (kv : list (str * value)).

(** Truth value of an object ([if x:], [not x]). *)
Definition truthy (v : value) : bool :=
  match v with
  | VNone => false
  | VBool b => b
  | VInt n => negb (n =? 0)
  | VStr s => match s with [] => false | _ => true end
  | VList xs => match xs with [] => false | _ => true end
  | VDict kv => match kv with [] => false | _ => true end
  end.

Definition isinstance_dict (v : value) : bool :=
  match v with VDict _ => true | _ => false end.
Definition isinstance_list (v : value) : bool :=
  match v with VList _ => true | _ => false end.
Definition isinstance_str (v : value) : bool :=
  match v with VStr _ => true | _ => false end.

(** ** Dictionaries, in insertion order *)

Definition dict := list (str * value).

Fixpoint dict_get (d : dict) (k : str) : option value :=
  match d with
  | [] => None
  | (k', v) :: d' => if str_eqb k' k then Some v else dict_get d' k
  end.

(** [k in d] *)
Definition dict_in (k : str) (d : dict) : bool :=
  match dict_get d k with Some _ => true | None => false end.

(** [d.keys()] *)
Definition dict_keys (d : dict) : list str := List.map fst d.

(** [d.get(k)], [None] when the key is absent. *)
Definition dict_get_or_none (d : dict) (k : str) : value :=
  match dict_get d k with Some v => v | None => VNone end.

(** The dictionary left by [d.pop(k)]. *)
Fixpoint dict_remove (d : dict) (k : str) : dict :=
  match d with
  | [] => []
  | (k', v) :: d' => if str_eqb k' k then d' else (k', v) :: dict_remove d' k
  end.

(** [d[k] = v]: an existing key keeps its place, a new key goes last. *)
Fixpoint dict_set (d : dict) (k : str) (v : value) : dict :=
  match d with
  | [] => [(k, v)]
  | (k', v') :: d' =>
      if str_eqb k' k then (k', v) :: d' else (k', v') :: dict_set d' k v
  end.

(** ** Exceptions *)

(** The texts of the [ValueError]s raised by [Transform]. *)
Inductive message :=
| MsgIssueNotDict       (* L'issue doit etre un dictionnaire *)
| MsgIssueNoFields      (* L'issue doit contenir la cle 'fields' *)
| MsgMetadataNotList    (* fields_metadata doit etre une liste *)
| MsgFieldsListNotList  (* fields_list doit etre une liste *)
| MsgFieldIdNotStr      (* field_id doit etre une chaine de caracteres *)
| MsgInvalidStructure.  (* Structure d'issue Jira invalide *)

Inductive exn :=
| ValueError (m : message)
| AttributeError
| TypeError
| KeyError (k : str)
| ZeroDivisionError
| JiraApiError (status : Z)   (* [Exception("JIRA API Error ...")] *)
| OtherError (tag : Z).       (* raised by a collaborator: network, disk *)

(** ** State and exception monad *)

Definition M (S A : Type) : Type := S -> (exn + A) * S.

Definition ret {S A} (a : A) : M S A := fun s => (inr a, s).
Definition raise {S A} (e : exn) : M S A := fun s => (inl e, s).
Definition bind {S A B} (m : M S A) (k : A -> M S B) : M S B :=
  fun s => match m s with
           | (inl e, s') => (inl e, s')
           | (inr a, s') => k a s'
           end.
Definition get {S} : M S S := fun s => (inr s, s).
Definition put {S} (s : S) : M S unit := fun _ => (inr tt, s).

Notation "x <- m ;; k" := (bind m (fun x => k))
  (at level 61, m at next level, right associativity).
Notation "m ;;; k" := (bind m (fun _ => k))
  (at level 61, right associativity).

(** [for x in xs: body x] *)
Fixpoint for_each {S A} (xs : list A) (body : A -> M S unit) : M S unit :=
  match xs with
  | [] => ret tt
  | x :: xs' => body x ;;; for_each xs' body
  end.

(** ** Transform *)

Definition fields_key : str := u "fields".
Definition id_key : str := u "id".
Definition name_key : str := u "name".
Definition customfield_prefix : str := u "customfield_".

Section Transform.
Context {U : UnicodeData}.

(** [Transform.normalize_field_name] *)
Definition normalize_field_name (field_name : value) : str :=
  if negb (truthy field_name) || negb (isinstance_str field_name) then []
  else
    match field_name with
    | VStr s =>
        let normalized := nfkd s in
        let without_accents := filter (fun c => combining c =? 0) normalized in
        let cleaned := sub_spaces without_accents in
        let cleaned := sub_non_word cleaned in
        let cleaned := strip_hyphens (sub_hyphens cleaned) in
        lower cleaned
    | _ => []
    end.

(** The two objects [transform_issue] receives by reference. *)
Record store := { issue : value; fields_metadata : value }.

(** [Transform.get_correspond_name_by_field_id], the loop over the list:
    the first dictionary whose [id] is the string [field_id] gives its
    [name] ([None] when it has none). *)
Fixpoint find_field_name (fields : list value) (field_id : str) : option value :=
  match fields with
  | [] => None
  | VDict field :: rest =>
      match dict_get field id_key with
      | Some (VStr i) =>
          if str_eqb i field_id then Some (dict_get_or_none field name_key)
          else find_field_name rest field_id
      | _ => find_field_name rest field_id
      end
  | _ :: rest => find_field_name rest field_id
  end.

(** [Transform.get_correspond_name_by_field_id] *)
Definition get_correspond_name_by_field_id (field_name : value) : M store value :=
  st <- get ;;
  match fields_metadata st with
  | VList fields =>
      match field_name with
      | VStr field_id =>
          match find_field_name fields field_id with
          | Some name => ret name
          | None => ret VNone
          end
      | _ => raise (ValueError MsgFieldIdNotStr)
      end
  | _ => raise (ValueError MsgFieldsListNotList)
  end.

(** [Transform.get_normalized_field_name] *)
Definition get_normalized_field_name (field_id : value) : M store str :=
  field_name <- get_correspond_name_by_field_id field_id ;;
  if truthy field_name then ret (normalize_field_name field_name)
  else ret [].

(** [Transform.rename_customfield].  [fields] is the dictionary held by the
    issue, so the assignment to [fields[new_name]] is a write into the issue.
    When [fields] is no dictionary (not reached from [transform_issue], which
    has called [fields.keys()] before), [old_name not in fields] decides: a
    list or a string that does not hold [old_name] returns the issue, a list
    that holds it fails at [pop] with [TypeError], a string that holds it has
    no [pop], and the other values are no containers. *)
Definition rename_customfield (old_name new_name : str) : M store unit :=
  st <- get ;;
  match issue st with
  | VDict d =>
      match dict_get d fields_key with
      | None => raise (ValueError MsgIssueNoFields)
      | Some (VDict fields) =>
          match dict_get fields old_name with
          | None => ret tt
          | Some v =>
              let fields' := dict_set (dict_remove fields old_name) new_name v in
              put {| issue := VDict (dict_set d fields_key (VDict fields'));
                     fields_metadata := fields_metadata st |}
          end
      | Some (VList xs) =>
          if existsb (fun x => match x with VStr s => str_eqb s old_name | _ => false end) xs
          then raise TypeError
          else ret tt
      | Some (VStr s) =>
          if is_substring old_name s then raise AttributeError else ret tt
      | Some _ => raise TypeError
      end
  | _ => raise (ValueError MsgIssueNotDict)
  end.

(** [Transform.get_custom_fields_names] *)
Definition get_custom_fields_names : M store (list str) :=
  st <- get ;;
  match issue st with
  | VDict d =>
      match dict_get d fields_key with
      | None => raise (ValueError MsgInvalidStructure)
      | Some (VDict fields) =>
          ret (filter (startswith customfield_prefix) (dict_keys fields))
      | Some _ => raise AttributeError   (* fields.keys() *)
      end
  | _ => raise (ValueError MsgInvalidStructure)
  end.

(** The body of the loop of [transform_issue]. *)
Definition rename_step (old_name : str) : M store unit :=
  new_name <- get_normalized_field_name (VStr old_name) ;;
  if truthy (VStr new_name) && negb (str_eqb new_name old_name)
  then rename_customfield old_name new_name
  else ret tt.

(** [Transform.transform_issue].  The value returned is the issue object
    itself, that is the [issue] of the final store. *)
Definition transform_issue : M store unit :=
  st <- get ;;
  match issue st with
  | VDict d =>
      if negb (dict_in fields_key d) then raise (ValueError MsgIssueNoFields)
      else if negb (isinstance_list (fields_metadata st))
      then raise (ValueError MsgMetadataNotList)
      else
        custom_fields_names <- get_custom_fields_names ;;
        for_each custom_fields_names rename_step
  | _ => raise (ValueError MsgIssueNotDict)
  end.

(** [transformer.transform_issue(issue, fields_metadata)] on two objects. *)
Definition run_transform (i m : value) : (exn + unit) * store :=
  transform_issue {| issue := i; fields_metadata := m |}.

End Transform.

(** ** The collaborators: remote service, file system, log *)

(** [Config], the values the pipeline reads.  [BATCH_SIZE] is held as the
    integer [int(config.BATCH_SIZE)] gives; [run_batch] hands the raw value
    to the page request, where it is the same number. *)
Record Config := {
  JIRA_PROJECT : str;
  BATCH_SIZE : Z;
  ETL_OUTPUT_DIR : str
}.

Definition bytes := list Z.

(** What the run does to the outside, in the order it does it.  Requests are
    recorded when sent, writes when done.  Of the log lines the trace keeps
    the launch line of a page unit and the lines about attachments; the other
    calls to the logger change nothing that is read back and are left out. *)
Inductive event :=
| SearchCount (project : str)                 (* GET search, maxResults 0 *)
| SearchPage (startAt : Z) (maxResults : Z)   (* GET search, all fields *)
| FieldCatalog                                (* GET field *)
| AttachmentGet (file_url : value)            (* GET of one attachment *)
| Makedirs (path : str)
| WriteJson (path : str) (data : value)
| WriteFile (path : str) (content : bytes)
| LogBatchStart (start_index : Z)             (* Processing batch starting at index *)
| LogAttachmentSaved (file_name : value)      (* info: Attachment sauvegarde *)
| LogAttachmentStatus (file_name : value) (status : Z)   (* warning: HTTP status *)
| LogAttachmentError (file_name : value) (e : exn)       (* error: exception *)
| LogNoAttachment.                            (* info: Pas d'attachments *)

Definition trace := list event.

(** [requests.Response], the parts that are read. *)
Record response := {
  status_code : Z;
  json : exn + value;      (* [response.json()] *)
  content : bytes
}.

(** [response.ok] *)
Definition ok (r : response) : bool :=
  negb ((400 <=? status_code r) && (status_code r <? 600)).

(** The behaviour of the collaborators: the answer to a request and the
    failure of a file operation, each as a function of what happened so far. *)
Record environment := {
  http : trace -> event -> exn + response;
  makedirs_error : trace -> str -> option exn;
  open_error : trace -> str -> option exn;
  path_join : str -> str -> str        (* [os.path.join] on two strings *)
}.

Definition emit (ev : event) : M trace unit := fun t => (inr tt, t ++ [ev]).

(** [try: body except Exception as e: handler e] *)
Definition try_except (body : M trace unit) (handler : exn -> M trace unit) : M trace unit :=
  fun t => match body t with
           | (inl e, t') => handler e t'
           | (inr a, t') => (inr a, t')
           end.

(** [v[k]] for a string key. *)
Definition getitem {S} (v : value) (k : str) : M S value :=
  match v with
  | VDict d => match dict_get d k with Some x => ret x | None => raise (KeyError k) end
  | _ => raise TypeError
  end.

(** [v.get(k, default)] *)
Definition dict_get_method {S} (v : value) (k : str) (default : value) : M S value :=
  match v with
  | VDict d => match dict_get d k with Some x => ret x | None => ret default end
  | _ => raise AttributeError
  end.

(** The elements a [for] loop visits. *)
Definition iterate {S} (v : value) : M S (list value) :=
  match v with
  | VList xs => ret xs
  | VDict d => ret (List.map VStr (dict_keys d))
  | VStr s => ret (List.map (fun c => VStr [c]) s)
  | _ => raise TypeError
  end.

(** [len(v)] *)
Definition len {S} (v : value) : M S Z :=
  match v with
  | VList xs => ret (Z.of_nat (List.length xs))
  | VDict d => ret (Z.of_nat (List.length d))
  | VStr s => ret (Z.of_nat (List.length s))
  | _ => raise TypeError
  end.

(** [os.path.join(a, b)]: both parts have to be strings. *)
Definition os_path_join (env : environment) (a : str) (b : value) : M trace str :=
  match b with
  | VStr s => ret (path_join env a s)
  | _ => raise TypeError
  end.

Definition key_key : str := u "key".
Definition total_key : str := u "total".
Definition issues_key : str := u "issues".
Definition attachment_key : str := u "attachment".
Definition content_key : str := u "content".
Definition filename_key : str := u "filename".

(** [math.ceil(a / b)] for [b <> 0].  The quotient is a float in Python; for
    operands below [2^53] its ceiling is the exact one, which this is.  From
    [2^53] on the float quotient is rounded and the two can differ: the
    statements on the number of pages carry the bound. *)
Definition ceil_div (a b : Z) : Z := - ((- a) / b).

Section Pipeline.
Context {U : UnicodeData}.
Variable env : environment.
Variable config : Config.

(** *** JiraClient *)

(** [self.session.get(...)]: the request is sent, the answer or the
    exception comes from the environment. *)
Definition session_get (request : event) : M trace response :=
  fun t => (http env t request, t ++ [request]).

(** [JiraClient._check_response] *)
Definition _check_response (r : response) : M trace unit :=
  if negb (ok r) then raise (JiraApiError (status_code r)) else ret tt.

Definition response_json (r : response) : M trace value :=
  match json r with
  | inl e => raise e
  | inr v => ret v
  end.

(** [JiraClient.countTotalIussues]; the query is on [self.jira_project]. *)
Definition countTotalIussues (project : str) : M trace value :=
  r <- session_get (SearchCount (JIRA_PROJECT config)) ;;
  _check_response r ;;;
  data <- response_json r ;;
  getitem data total_key.

(** [JiraClient.getBatchIssues] *)
Definition getBatchIssues (start maxResults : Z) : M trace value :=
  r <- session_get (SearchPage start maxResults) ;;
  _check_response r ;;;
  response_json r.

(** [JiraClient.get_jira_fields_metadata] *)
Definition get_jira_fields_metadata : M trace value :=
  r <- session_get FieldCatalog ;;
  _check_response r ;;;
  response_json r.

(** The body of the [try] of [download_attachments]. *)
Definition download_one (file_url file_name : value) (issue_dir : str) : M trace unit :=
  r <- session_get (AttachmentGet file_url) ;;
  if status_code r =? 200 then
    file_path <- os_path_join env issue_dir file_name ;;
    (fun t => match open_error env t file_path with
              | Some e => (inl e, t)
              | None => (inr tt, t ++ [WriteFile file_path (content r)])
              end) ;;;
    emit (LogAttachmentSaved file_name)
  else emit (LogAttachmentStatus file_name (status_code r)).

(** [JiraClient.download_attachments] *)
Definition download_attachments (issue_key attachments : value) (issue_dir : str) : M trace unit :=
  xs <- iterate attachments ;;
  for_each xs (fun attachment =>
    file_url <- getitem attachment content_key ;;
    file_name <- getitem attachment filename_key ;;
    try_except (download_one file_url file_name issue_dir)
               (fun e => emit (LogAttachmentError file_name e))).

(** *** FileManager *)

(** [FileManager.create_issue_folder] *)
Definition create_issue_folder (base_dir : str) (issue_key : value) : M trace str :=
  issue_dir <- os_path_join env base_dir issue_key ;;
  (fun t => match makedirs_error env t issue_dir with
            | Some e => (inl e, t)
            | None => (inr tt, t ++ [Makedirs issue_dir])
            end) ;;;
  ret issue_dir.

(** The text of [f"{issue_key}.json"] for a string key; [folder] comes from
    [create_issue_folder], which has already refused a key that is no
    string. *)
Definition json_name (issue_key : value) : value :=
  match issue_key with
  | VStr k => VStr (k ++ u ".json")
  | _ => VNone
  end.

(** [FileManager.save_json] *)
Definition save_json (data : value) (folder : str) (issue_key : value) : M trace unit :=
  file_path <- os_path_join env folder (json_name issue_key) ;;
  fun t => match open_error env t file_path with
           | Some e => (inl e, t)
           | None => (inr tt, t ++ [WriteJson file_path data])
           end.

(** *** Load *)

(** [Load.save_issue] *)
Definition save_issue (issue : value) : M trace unit :=
  issue_key <- dict_get_method issue key_key VNone ;;
  issue_dir <- create_issue_folder (ETL_OUTPUT_DIR config) issue_key ;;
  save_json issue issue_dir issue_key ;;;
  fields <- dict_get_method issue fields_key (VDict []) ;;
  attachments <- dict_get_method fields attachment_key (VList []) ;;
  if truthy attachments then download_attachments issue_key attachments issue_dir
  else emit LogNoAttachment.

(** *** Extract *)

(** [Extract.extract_batch_issues]; the log line takes the length of the
    list of issues. *)
Definition extract_batch_issues (start batch_size : Z) : M trace value :=
  batch_issues <- getBatchIssues start batch_size ;;
  issues <- getitem batch_issues issues_key ;;
  len issues ;;;
  ret issues.

(** *** Pipeline *)

(** [Pipeline.get_metadata] *)
Definition get_metadata : M trace value := get_jira_fields_metadata.

(** The loop of [run_batch]: each issue is transformed, then saved.  All the
    calls receive the one catalog object of the unit; [fields_metadata st] is
    what that object holds after a call. *)
Fixpoint process_issues (issues : list value) (jira_fields_metadata : value) : M trace unit :=
  match issues with
  | [] => ret tt
  | raw_issue :: rest =>
      match run_transform raw_issue jira_fields_metadata with
      | (inl e, _) => raise e
      | (inr _, st) =>
          let transfomred_issue := issue st in
          save_issue transfomred_issue ;;;
          process_issues rest (fields_metadata st)
      end
  end.

(** [Pipeline.run_batch] *)
Definition run_batch (start : Z) : M trace unit :=
  jira_fields_metadata <- get_metadata ;;
  batch_issues <- extract_batch_issues start (BATCH_SIZE config) ;;
  issues <- iterate batch_issues ;;
  process_issues issues jira_fields_metadata.

(** [Pipeline.run_batch_with_log] *)
Definition run_batch_with_log (start_index : Z) : M trace unit :=
  emit (LogBatchStart start_index) ;;;
  run_batch start_index.

(** [executor.submit(f, x)]: the unit runs, its exception is kept in the
    future.  The five workers of the pool are modelled by one schedule, in
    which the units run one after the other in the order of submission. *)
Definition submit (unit_of_work : M trace unit) : M trace (option exn) :=
  fun t => match unit_of_work t with
           | (inl e, t') => (inr (Some e), t')
           | (inr _, t') => (inr None, t')
           end.

Fixpoint submit_all (starts : list Z) : M trace (list (option exn)) :=
  match starts with
  | [] => ret []
  | start_index :: rest =>
      future <- submit (run_batch_with_log start_index) ;;
      futures <- submit_all rest ;;
      ret (future :: futures)
  end.

(** [future.result()] *)
Definition result (future : option exn) : M trace unit :=
  match future with
  | Some e => raise e
  | None => ret tt
  end.

(** The number read from [data["total"]], as the division takes it. *)
Definition as_number {S} (v : value) : M S Z :=
  match v with
  | VInt n => ret n
  | VBool b => ret (if b then 1 else 0)
  | _ => raise TypeError
  end.

(** [range(iterations)] scaled by the batch size: the start indexes. *)
Definition start_indexes (iterations : Z) : list Z :=
  List.map (fun i => Z.of_nat i * BATCH_SIZE config) (seq 0 (Z.to_nat iterations)).

(** [Pipeline.run] *)
Definition run : M trace unit :=
  nbIssues <- countTotalIussues (JIRA_PROJECT config) ;;
  n <- as_number nbIssues ;;
  (if BATCH_SIZE config =? 0 then raise ZeroDivisionError else ret tt) ;;;
  let iterations := ceil_div n (BATCH_SIZE config) in
  futures <- submit_all (start_indexes iterations) ;;
  for_each futures result.

End Pipeline.

(** * Definitions used in the statements *)

(** A fragment of the Unicode tables: the decomposition of a few accented
    Latin letters, and the acute, grave, circumflex and cedilla marks. *)
Definition latin_decompose (c : codepoint) : str :=
  if c =? 233 then [101; 769]       (* e acute *)
  else if c =? 232 then [101; 768]  (* e grave *)
  else if c =? 234 then [101; 770]  (* e circumflex *)
  else if c =? 224 then [97; 768]   (* a grave *)
  else if c =? 231 then [99; 807]   (* c cedilla *)
  else if c =? 201 then [69; 769]   (* E acute *)
  else [c].

Definition latin_combining (c : codepoint) : Z :=
  if (c =? 768) || (c =? 769) || (c =? 770) then 230
  else if c =? 807 then 202
  else 0.

Definition latin_unicode : UnicodeData :=
  {| nfkd := flat_map latin_decompose; combining := latin_combining |}.

Definition statut_deploiement : str := u "Statut D" ++ [233] ++ u "ploiement".

Definition customfield_100 : str := u "customfield_100".
Definition root_cause_catalog : value :=
  VList [VDict [(id_key, VStr customfield_100); (name_key, VStr (u "Root Cause"))]].

(** No two hyphens in a row. *)
Fixpoint no_hyphen_pair (s : str) : bool :=
  match s with
  | [] => true
  | c :: s' =>
      match s' with
      | [] => true
      | c' :: _ => negb (is_hyphen c && is_hyphen c') && no_hyphen_pair s'
      end
  end.

Definition starts_with_hyphen (s : str) : bool :=
  match s with
  | [] => false
  | c :: _ => is_hyphen c
  end.

(** The shape of a normalized token: characters of [[a-z0-9-]], no two
    hyphens in a row, no hyphen at either end. *)
Definition is_normalized_token (t : str) : bool :=
  forallb is_token_char t && no_hyphen_pair t
  && negb (starts_with_hyphen t) && str_eqb (rstrip is_hyphen t) t.

Definition statut_decomposed : str := u "Statut De" ++ [769] ++ u "ploiement".

Definition is_value_error (r : exn + unit) : bool :=
  match r with inl (ValueError _) => true | _ => false end.

(** The record holds a [fields] entry that is itself a mapping. *)
Definition has_fields_submapping (i : value) : bool :=
  match i with
  | VDict d => match dict_get d fields_key with Some (VDict _) => true | _ => false end
  | _ => false
  end.

(** The record holds the key [fields], whatever its value. *)
Definition has_fields_key (i : value) : bool :=
  match i with
  | VDict d => dict_in fields_key d
  | _ => false
  end.

(** The three preconditions as the specification words them. *)
Definition stated_preconditions (i m : value) : bool :=
  isinstance_dict i && has_fields_submapping i && isinstance_list m.

(** The three tests [transform_issue] makes before it reads the fields. *)
Definition checked_preconditions (i m : value) : bool :=
  isinstance_dict i && has_fields_key i && isinstance_list m.

(** The normalized name [get_normalized_field_name] returns for an
    identifier, the record and the catalog being [i] and [m]. *)
Definition normalized_name {U : UnicodeData} (i m : value) (field_id : str) : exn + str :=
  fst (get_normalized_field_name (VStr field_id) {| issue := i; fields_metadata := m |}).

Definition customfield_1 : str := u "customfield_1".
Definition customfield_2 : str := u "customfield_2".
Definition twin_catalog : list value :=
  [VDict [(id_key, VStr customfield_1); (name_key, VStr (u "Root Cause"))];
   VDict [(id_key, VStr customfield_2); (name_key, VStr (u "root cause"))]].

(** The start indexes of the page units launched, in the order of launch. *)
Definition launches (t : trace) : list Z :=
  flat_map (fun e => match e with LogBatchStart s => [s] | _ => [] end) t.

(** The number of fetches of the field catalog. *)
Definition catalog_fetches (t : trace) : nat :=
  List.length (filter (fun e => match e with FieldCatalog => true | _ => false end) t).

(** The page requests sent: start index and number of records asked for. *)
Definition page_requests (t : trace) : list (Z * Z) :=
  flat_map (fun e => match e with SearchPage s m => [(s, m)] | _ => [] end) t.

(** The attachment downloads attempted, by address. *)
Definition attachment_attempts (t : trace) : list value :=
  flat_map (fun e => match e with AttachmentGet a => [a] | _ => [] end) t.


(** The events of storing a record. *)
Definition storage_event (e : event) : Prop :=
  match e with
  | AttachmentGet _ | Makedirs _ | WriteJson _ _ | WriteFile _ _
  | LogAttachmentSaved _ | LogAttachmentStatus _ _ | LogAttachmentError _ _
  | LogNoAttachment => True
  | _ => False
  end.

(** The events of a page unit after its catalog fetch: the request of its own
    page, for [B] records, and the storing of records. *)
Definition page_event (start B : Z) (e : event) : Prop :=
  match e with
  | SearchPage s m => s = start /\ m = B
  | _ => storage_event e
  end.

(** A computation only adds events, and only events of the class [P]. *)
Definition extends {A} (P : event -> Prop) (m : M trace A) : Prop :=
  forall t, exists t', snd (m t) = t ++ t' /\ Forall P t'.

(** An attachment descriptor with the two entries that are read. *)
Definition well_formed_attachment (a : value) : bool :=
  match a with
  | VDict d => dict_in content_key d && dict_in filename_key d
  | _ => false
  end.

Definition attachment_url (a : value) : value :=
  match a with
  | VDict d => dict_get_or_none d content_key
  | _ => VNone
  end.

(** A remote with 120 issues and an empty field catalog: a page request gets
    the issues from its start index on, as many as asked for at most. *)
Definition answer (v : value) : response :=
  {| status_code := 200; json := inr v; content := [] |}.

Definition plain_issue : value :=
  VDict [(key_key, VStr (u "P-1")); (fields_key, VDict [(u "summary", VStr (u "S"))])].

Definition remote_120 : environment :=
  {| http := fun _ request =>
       match request with
       | SearchCount _ => inr (answer (VDict [(total_key, VInt 120)]))
       | SearchPage s m =>
           inr (answer (VDict [(total_key, VInt 120);
                               (issues_key, VList (repeat plain_issue (Z.to_nat (Z.min m (120 - s)))))]))
       | FieldCatalog => inr (answer (VList []))
       | _ => inl (OtherError 0)
       end;
     makedirs_error := fun _ _ => None;
     open_error := fun _ _ => None;
     path_join := fun a b => a ++ u "/" ++ b |}.

Definition config_50 : Config :=
  {| JIRA_PROJECT := u "P"; BATCH_SIZE := 50; ETL_OUTPUT_DIR := u "data" |}.

(** A remote on which every download goes wrong in a way of its own: the
    first request raises, the others answer 404, and no file can be
    opened for an attachment. *)
Definition failing_downloads : environment :=
  {| http := fun t request =>
       match request with
       | AttachmentGet (VStr a) =>
           if str_eqb a (u "http://a/1") then inl (OtherError 1)
           else if str_eqb a (u "http://a/2")
           then inr {| status_code := 404; json := inl (OtherError 2); content := [] |}
           else inr {| status_code := 200; json := inl (OtherError 2); content := [1; 2; 3] |}
       | _ => inl (OtherError 0)
       end;
     makedirs_error := fun _ _ => None;
     open_error := fun t _ =>
       match t with
       | [] | [_] => None
       | _ => Some (OtherError 3)
       end;
     path_join := fun a b => a ++ u "/" ++ b |}.

Definition attachment (url name : string) : value :=
  VDict [(content_key, VStr (u url)); (filename_key, VStr (u name))].

Definition three_attachments : list value :=
  [attachment "http://a/1" "one.txt"; attachment "http://a/2" "two.txt";
   attachment "http://a/3" "three.txt"].

Definition issue_with_attachments : dict :=
  [(key_key, VStr (u "P-7"));
   (fields_key, VDict [(attachment_key, VList three_attachments)])].

Section Statements.
Context {U : UnicodeData}.

(** The name [get_normalized_field_name] gives an identifier, read off the
    list of the catalog. *)
Definition field_token (cat : list value) (field_id : str) : str :=
  match find_field_name cat field_id with
  | Some name => if truthy name then normalize_field_name name else []
  | None => []
  end.

(** The test of the loop: a non-empty name that differs from the identifier. *)
Definition renames (cat : list value) (old_name : str) : bool :=
  truthy (VStr (field_token cat old_name))
  && negb (str_eqb (field_token cat old_name) old_name).

(** One turn of the loop, on the [fields] dictionary. *)
Definition rename_in_fields (cat : list value) (old_name : str) (fields : dict) : dict :=
  if renames cat old_name then
    match dict_get fields old_name with
    | Some v => dict_set (dict_remove fields old_name) (field_token cat old_name) v
    | None => fields
    end
  else fields.

(** The whole loop, on the [fields] dictionary. *)
Definition transformed_fields (cat : list value) (fields : dict) : dict :=
  fold_left (fun f old_name => rename_in_fields cat old_name f)
    (filter (startswith customfield_prefix) (dict_keys fields)) fields.

(** The outcome of [transform_issue], by cases on its two arguments. *)
Inductive transform_case (i m : value) : (exn + unit) * store -> Prop :=
| CaseNotDict :
    isinstance_dict i = false ->
    transform_case i m (inl (ValueError MsgIssueNotDict), {| issue := i; fields_metadata := m |})
| CaseNoFields d :
    i = VDict d -> dict_in fields_key d = false ->
    transform_case i m (inl (ValueError MsgIssueNoFields), {| issue := i; fields_metadata := m |})
| CaseNotList d :
    i = VDict d -> dict_in fields_key d = true -> isinstance_list m = false ->
    transform_case i m (inl (ValueError MsgMetadataNotList), {| issue := i; fields_metadata := m |})
| CaseFieldsNotDict d x cat :
    i = VDict d -> m = VList cat -> dict_get d fields_key = Some x -> isinstance_dict x = false ->
    transform_case i m (inl AttributeError, {| issue := i; fields_metadata := m |})
| CaseRenamed d f cat :
    i = VDict d -> m = VList cat -> dict_get d fields_key = Some (VDict f) ->
    transform_case i m
      (inr tt, {| issue := VDict (dict_set d fields_key (VDict (transformed_fields cat f)));
                  fields_metadata := m |}).

End Statements.

(** ASCII letters and digits. *)
Definition is_alnum (c : codepoint) : bool :=
  is_lower c || is_upper c || is_digit c.

(** The string [normalize_field_name] cleans: the decomposition without its
    combining marks. *)
Definition without_accents {U : UnicodeData} (s : str) : str :=
  filter (fun c => combining c =? 0) (nfkd s).

Definition attachment_name (a : value) : value :=
  match a with
  | VDict d => dict_get_or_none d filename_key
  | _ => VNone
  end.

(** The events other than the writing of an attachment file. *)
Definition no_file_written (e : event) : Prop :=
  match e with
  | WriteFile _ _ => False
  | _ => True
  end.

(** [Extract.getNbTotalIssuer]; the log line is left out. *)
Definition getNbTotalIssuer (env : environment) (config : Config) : M trace value :=
  total <- countTotalIussues env config (JIRA_PROJECT config) ;;
  ret total.

Definition config_0 : Config :=
  {| JIRA_PROJECT := u "P"; BATCH_SIZE := 0; ETL_OUTPUT_DIR := u "data" |}.

(** A remote that answers every request with status 500. *)
Definition remote_500 : environment :=
  {| http := fun _ _ => inr {| status_code := 500; json := inr VNone; content := [] |};
     makedirs_error := fun _ _ => None;
     open_error := fun _ _ => None;
     path_join := fun a b => a ++ u "/" ++ b |}.

(** A remote that serves every attachment, and a disk that takes every
    file. *)
Definition serve_file (file_url : value) : response :=
  {| status_code := 200; json := inl (OtherError 2); content := [7; 7] |}.

Definition file_server : environment :=
  {| http := fun _ request =>
       match request with
       | AttachmentGet a => inr (serve_file a)
       | _ => inl (OtherError 0)
       end;
     makedirs_error := fun _ _ => None;
     open_error := fun _ _ => None;
     path_join := fun a b => a ++ u "/" ++ b |}.

(** A remote on which no attachment is found. *)
Definition attachments_gone : environment :=
  {| http := fun _ request =>
       match request with
       | AttachmentGet _ => inr {| status_code := 404; json := inl (OtherError 2); content := [] |}
       | _ => inl (OtherError 0)
       end;
     makedirs_error := fun _ _ => None;
     open_error := fun _ _ => None;
     path_join := fun a b => a ++ u "/" ++ b |}.


(** What the handling of one descriptor adds to the trace, as the answers of
    the collaborators at that point decide: the request, then the file and the
    info line for an answer 200 written to disk, a warning line with the
    status for another answer, an error line with the exception otherwise. *)
Definition download_events (env : environment) (dir : str) (a : value) (t : trace)
  : list event :=
  let file_url := attachment_url a in
  let file_name := attachment_name a in
  AttachmentGet file_url ::
  match http env t (AttachmentGet file_url) with
  | inl e => [LogAttachmentError file_name e]
  | inr r =>
      if status_code r =? 200 then
        match file_name with
        | VStr n =>
            match open_error env (t ++ [AttachmentGet file_url]) (path_join env dir n) with
            | Some e => [LogAttachmentError file_name e]
            | None => [WriteFile (path_join env dir n) (content r);
                       LogAttachmentSaved file_name]
            end
        | _ => [LogAttachmentError file_name TypeError]
        end
      else [LogAttachmentStatus file_name (status_code r)]
  end.

(** The same for a list of descriptors, one after the other. *)
Fixpoint downloads_events (env : environment) (dir : str) (atts : list value) (t : trace)
  : list event :=
  match atts with
  | [] => []
  | a :: rest =>
      download_events env dir a t
      ++ downloads_events env dir rest (t ++ download_events env dir a t)
  end.

(** The download of a descriptor goes through: answer 200, and a file that
    can be opened under a name that is a string. *)
Definition download_succeeds (env : environment) (dir : str) (a : value) (t : trace) : bool :=
  match http env t (AttachmentGet (attachment_url a)) with
  | inl _ => false
  | inr r =>
      (status_code r =? 200)
      && match attachment_name a with
         | VStr n =>
             match open_error env (t ++ [AttachmentGet (attachment_url a)])
                     (path_join env dir n) with
             | Some _ => false
             | None => true
             end
         | _ => false
         end
  end.

(** The warning and error lines about an attachment. *)
Definition is_failure_line (e : event) : Prop :=
  match e with
  | LogAttachmentStatus _ _ | LogAttachmentError _ _ => True
  | _ => False
  end.

(** The JSON documents written, in the order of writing. *)
Definition json_documents (t : trace) : list value :=
  flat_map (fun e => match e with WriteJson _ data => [data] | _ => [] end) t.

(** The events of [download_attachments]. *)
Definition attachment_event (e : event) : Prop :=
  match e with
  | AttachmentGet _ | WriteFile _ _
  | LogAttachmentSaved _ | LogAttachmentStatus _ _ | LogAttachmentError _ _ => True
  | _ => False
  end.


(** The record [transform_issue] leaves for a raw record and a catalog. *)
Definition transformed {U : UnicodeData} (meta raw : value) : value :=
  issue (snd (run_transform raw meta)).

(** * Properties *)

(** ** Worked examples *)

Example normalize_statut :
  @normalize_field_name latin_unicode (VStr statut_deploiement) = u "statut-deploiement".
Proof. reflexivity. Qed.

Example normalize_misc :
  @normalize_field_name latin_unicode (VStr (u "  Root   Cause (v2)_x--"))
  = u "root-cause-v2-x".
Proof. reflexivity. Qed.

Example transform_root_cause :
  @run_transform latin_unicode
    (VDict [(u "key", VStr (u "P-1")); (fields_key, VDict [(customfield_100, VStr (u "X"))])])
    root_cause_catalog
  = (inr tt,
     {| issue := VDict [(u "key", VStr (u "P-1")); (fields_key, VDict [(u "root-cause", VStr (u "X"))])];
        fields_metadata := root_cause_catalog |}).
Proof. reflexivity. Qed.

Example transform_fields_none :
  @run_transform latin_unicode (VDict [(fields_key, VNone)]) (VList [])
  = (inl AttributeError, {| issue := VDict [(fields_key, VNone)]; fields_metadata := VList [] |}).
Proof. reflexivity. Qed.

(** ** Character classes *)

Ltac char_class :=
  intros;
  try (apply not_true_is_false; intro);
  unfold is_token_char, is_word, is_space, is_ascii, is_lower, is_upper,
    is_digit, is_hyphen, lower_char, hyphen, underscore in *;
  repeat match goal with
    | H : _ = true |- _ =>
        rewrite ?orb_true_iff, ?andb_true_iff, ?Z.leb_le, ?Z.ltb_lt, ?Z.eqb_eq in H
    end;
  rewrite ?orb_true_iff, ?andb_true_iff, ?Z.leb_le, ?Z.ltb_lt, ?Z.eqb_eq;
  try lia.

Lemma token_char_word c : is_token_char c = true -> is_word c = true.
Proof. char_class. Qed.

Lemma token_char_ascii c : is_token_char c = true -> is_ascii c = true.
Proof. char_class. Qed.

Lemma token_char_not_space c : is_token_char c = true -> is_space c = false.
Proof. char_class. Qed.

Lemma token_char_not_underscore c : is_token_char c = true -> c <> underscore.
Proof. char_class. Qed.

Lemma token_char_lower c : is_token_char c = true -> lower_char c = c.
Proof.
  intros H. unfold lower_char. destruct (is_upper c) eqn:E; [|reflexivity].
  exfalso. revert H E. char_class.
Qed.

Lemma word_lower_token c : is_word c = true -> is_token_char (lower_char c) = true.
Proof.
  intros H. unfold lower_char. destruct (is_upper c) eqn:E; revert H E; char_class.
Qed.

Lemma lower_char_hyphen c : is_hyphen (lower_char c) = is_hyphen c.
Proof.
  unfold lower_char. destruct (is_upper c) eqn:E; [|reflexivity].
  unfold is_hyphen, hyphen. destruct (Z.eqb_spec c 45) as [->|N]; [discriminate|].
  apply Z.eqb_neq. revert E. char_class.
Qed.

Lemma is_hyphen_eq c : is_hyphen c = true -> c = hyphen.
Proof. char_class. Qed.

(** ** The steps of the normalizer *)

Lemma sub_non_word_word s : forallb is_word (sub_non_word s) = true.
Proof.
  induction s as [|c s IH]; simpl; [reflexivity|].
  rewrite IH, andb_true_r. destruct (is_word c) eqn:E; [exact E | reflexivity].
Qed.

Lemma sub_runs_forallb (q p : codepoint -> bool) s :
  q hyphen = true -> forallb q s = true ->
  forall b, forallb q (sub_runs p b s) = true.
Proof.
  intros Hh. induction s as [|c s IH]; simpl; intros H b; [reflexivity|].
  apply andb_true_iff in H as [Hc Hs].
  destruct (p c), b; simpl; rewrite ?Hh, ?Hc, ?IH; auto.
Qed.

Lemma sub_runs_none p s :
  forallb (fun c => negb (p c)) s = true -> forall b, sub_runs p b s = s.
Proof.
  induction s as [|c s IH]; simpl; intros H b; [reflexivity|].
  apply andb_true_iff in H as [Hc Hs].
  destruct (p c); [discriminate|]. now rewrite IH.
Qed.

Lemma lstrip_forallb (q p : codepoint -> bool) s :
  forallb q s = true -> forallb q (lstrip p s) = true.
Proof.
  induction s as [|c s IH]; simpl; intros H; [reflexivity|].
  destruct (p c); [|exact H].
  apply andb_true_iff in H as [_ Hs]. auto.
Qed.

Lemma rstrip_forallb (q p : codepoint -> bool) s :
  forallb q s = true -> forallb q (rstrip p s) = true.
Proof.
  induction s as [|c s IH]; simpl; intros H; [reflexivity|].
  apply andb_true_iff in H as [Hc Hs]. specialize (IH Hs).
  destruct (rstrip p s) as [|r rs].
  - destruct (p c); simpl; [reflexivity | now rewrite Hc].
  - change (forallb q (c :: r :: rs)) with (q c && forallb q (r :: rs)).
    now rewrite Hc, IH.
Qed.

Lemma sub_hyphens_no_pair s b :
  no_hyphen_pair (sub_runs is_hyphen b s) = true
  /\ (b = true -> starts_with_hyphen (sub_runs is_hyphen b s) = false).
Proof.
  revert b. induction s as [|c s IH]; intros b; [now split|].
  simpl sub_runs. destruct (is_hyphen c) eqn:Ec.
  - destruct (IH true) as [IH1 IH2]. specialize (IH2 eq_refl).
    destruct b; [now split|]. split; [|discriminate].
    simpl. destruct (sub_runs is_hyphen true s) as [|c' r]; [reflexivity|].
    simpl in IH2.
    change (negb (is_hyphen hyphen && is_hyphen c') && no_hyphen_pair (c' :: r) = true).
    rewrite IH2, andb_false_r. exact IH1.
  - destruct (IH false) as [IH1 _]. split.
    + simpl. destruct (sub_runs is_hyphen false s) as [|c' r]; [reflexivity|].
      rewrite Ec. exact IH1.
    + intros _. simpl. exact Ec.
Qed.

Lemma no_pair_sub_hyphens s :
  no_hyphen_pair s = true ->
  forall b, (b = true -> starts_with_hyphen s = false) ->
  sub_runs is_hyphen b s = s.
Proof.
  induction s as [|c s IH]; intros H b Hb; [reflexivity|].
  simpl sub_runs. destruct (is_hyphen c) eqn:Ec.
  - destruct b; [specialize (Hb eq_refl); simpl in Hb; congruence|].
    rewrite <- (is_hyphen_eq c Ec) at 1. f_equal.
    destruct s as [|c' r]; [reflexivity|].
    simpl in H. rewrite Ec in H. apply andb_true_iff in H as [H1 H2].
    apply IH; [exact H2|]. intros _. simpl.
    destruct (is_hyphen c'); [discriminate | reflexivity].
  - f_equal. apply IH; [|discriminate].
    destruct s as [|c' r]; [reflexivity|].
    simpl in H. apply andb_true_iff in H as [_ H2]. exact H2.
Qed.

Lemma no_pair_tail c s : no_hyphen_pair (c :: s) = true -> no_hyphen_pair s = true.
Proof.
  destruct s as [|c' r]; [reflexivity|]. simpl.
  intros H. apply andb_true_iff in H as [_ H]. exact H.
Qed.

Lemma lstrip_no_pair p s : no_hyphen_pair s = true -> no_hyphen_pair (lstrip p s) = true.
Proof.
  induction s as [|c s IH]; intros H; [reflexivity|].
  simpl lstrip. destruct (p c); [|exact H].
  apply IH. exact (no_pair_tail _ _ H).
Qed.

Lemma rstrip_head p c s :
  rstrip p (c :: s) = [] \/ exists r, rstrip p (c :: s) = c :: r.
Proof.
  simpl. destruct (rstrip p s) as [|x r].
  - destruct (p c); [now left | right; now exists []].
  - right. now exists (x :: r).
Qed.

Lemma rstrip_no_pair p s : no_hyphen_pair s = true -> no_hyphen_pair (rstrip p s) = true.
Proof.
  induction s as [|c s IH]; intros H; [reflexivity|].
  specialize (IH (no_pair_tail _ _ H)).
  simpl rstrip. destruct (rstrip p s) as [|x r] eqn:Er.
  - destruct (p c); reflexivity.
  - destruct s as [|c' s']; [discriminate|].
    destruct (rstrip_head p c' s') as [E | [r' E]]; rewrite E in Er; [discriminate|].
    injection Er as <- <-.
    simpl in H. apply andb_true_iff in H as [H1 _].
    change (no_hyphen_pair (c :: c' :: r'))
      with (negb (is_hyphen c && is_hyphen c') && no_hyphen_pair (c' :: r')).
    now rewrite H1, IH.
Qed.

Lemma lstrip_head s : starts_with_hyphen (lstrip is_hyphen s) = false.
Proof.
  induction s as [|c s IH]; [reflexivity|].
  simpl. destruct (is_hyphen c) eqn:E; [exact IH | simpl; exact E].
Qed.

Lemma lstrip_fixed s : starts_with_hyphen s = false -> lstrip is_hyphen s = s.
Proof.
  destruct s as [|c s]; [reflexivity|]. simpl. now intros ->.
Qed.

Lemma rstrip_starts p s :
  starts_with_hyphen s = false -> starts_with_hyphen (rstrip p s) = false.
Proof.
  destruct s as [|c s]; [reflexivity|]. intros H.
  destruct (rstrip_head p c s) as [E | [r E]]; rewrite E; [reflexivity | exact H].
Qed.

Lemma rstrip_idem p s : rstrip p (rstrip p s) = rstrip p s.
Proof.
  induction s as [|c s IH]; [reflexivity|].
  simpl. destruct (rstrip p s) as [|x r] eqn:Er.
  - destruct (p c) eqn:Ec; [reflexivity|]. simpl. now rewrite Ec.
  - change (rstrip p (c :: x :: r))
      with (match rstrip p (x :: r) with [] => if p c then [] else [c] | r0 => c :: r0 end).
    now rewrite IH.
Qed.

Lemma lower_no_pair s : no_hyphen_pair (lower s) = no_hyphen_pair s.
Proof.
  induction s as [|c s IH]; [reflexivity|].
  destruct s as [|c' r]; [reflexivity|].
  change (negb (is_hyphen (lower_char c) && is_hyphen (lower_char c'))
          && no_hyphen_pair (lower (c' :: r))
          = negb (is_hyphen c && is_hyphen c') && no_hyphen_pair (c' :: r)).
  now rewrite !lower_char_hyphen, IH.
Qed.

Lemma lower_starts s : starts_with_hyphen (lower s) = starts_with_hyphen s.
Proof. destruct s; [reflexivity|]. apply lower_char_hyphen. Qed.

Lemma lower_rstrip s : rstrip is_hyphen (lower s) = lower (rstrip is_hyphen s).
Proof.
  induction s as [|c s IH]; [reflexivity|].
  simpl. fold (lower s). rewrite IH.
  destruct (rstrip is_hyphen s) as [|x r]; simpl.
  - rewrite lower_char_hyphen. now destruct (is_hyphen c).
  - reflexivity.
Qed.

Lemma lower_token s : forallb is_word s = true -> forallb is_token_char (lower s) = true.
Proof.
  induction s as [|c s IH]; simpl; intros H; [reflexivity|].
  apply andb_true_iff in H as [Hc Hs]. now rewrite word_lower_token, IH.
Qed.

Lemma lower_fixed s : forallb is_token_char s = true -> lower s = s.
Proof.
  induction s as [|c s IH]; simpl; intros H; [reflexivity|].
  apply andb_true_iff in H as [Hc Hs]. now rewrite token_char_lower, IH.
Qed.

Lemma forallb_impl {A} (p q : A -> bool) (l : list A) :
  (forall x, p x = true -> q x = true) -> forallb p l = true -> forallb q l = true.
Proof.
  intros Hpq. induction l as [|x l IH]; simpl; intros H; [reflexivity|].
  apply andb_true_iff in H as [Hx Hl]. now rewrite Hpq, IH.
Qed.

Lemma filter_all {A} (p : A -> bool) (l : list A) :
  forallb p l = true -> filter p l = l.
Proof.
  induction l as [|x l IH]; simpl; intros H; [reflexivity|].
  apply andb_true_iff in H as [Hx Hl]. now rewrite Hx, IH.
Qed.

Section Normalizer.
Context {U : UnicodeData}.

Lemma normalize_invalid v :
  isinstance_str v = false \/ v = VStr [] -> normalize_field_name v = [].
Proof.
  intros [H | ->]; [|reflexivity].
  unfold normalize_field_name. rewrite H. now rewrite orb_true_r.
Qed.

Lemma normalize_str c s :
  normalize_field_name (VStr (c :: s))
  = lower (strip_hyphens (sub_hyphens (sub_non_word (sub_spaces
      (filter (fun x => combining x =? 0) (nfkd (c :: s))))))).
Proof. reflexivity. Qed.

Lemma normalize_nonempty s :
  s <> [] ->
  normalize_field_name (VStr s)
  = lower (strip_hyphens (sub_hyphens (sub_non_word (sub_spaces
      (filter (fun x => combining x =? 0) (nfkd s)))))).
Proof. destruct s; [congruence | reflexivity]. Qed.

Lemma normalize_shape v : is_normalized_token (normalize_field_name v) = true.
Proof.
  destruct v as [| | |[|c s]| |];
    try (rewrite normalize_invalid by (left; reflexivity); reflexivity);
    [reflexivity|].
  rewrite normalize_str.
  set (w := sub_non_word _).
  assert (Hw : forallb is_word w = true) by apply sub_non_word_word.
  clearbody w. unfold is_normalized_token, strip_hyphens, sub_hyphens.
  destruct (sub_hyphens_no_pair w false) as [Hp _].
  set (x := sub_runs is_hyphen false w) in *.
  assert (Hx : forallb is_word x = true)
    by (apply sub_runs_forallb; [reflexivity | exact Hw]).
  clearbody x.
  rewrite lower_token, lower_no_pair, lower_starts, lower_rstrip.
  - rewrite rstrip_idem, str_eqb_refl, rstrip_no_pair, rstrip_starts.
    + reflexivity.
    + apply lstrip_head.
    + now apply lstrip_no_pair.
  - now apply rstrip_forallb, lstrip_forallb.
Qed.

Lemma normalize_token_chars v : forallb is_token_char (normalize_field_name v) = true.
Proof.
  pose proof (normalize_shape v) as H. unfold is_normalized_token in H.
  repeat (apply andb_true_iff in H as [H _]). exact H.
Qed.

(** A normalized name holds no underscore. *)
Lemma normalize_no_underscore v : ~ In underscore (normalize_field_name v).
Proof.
  intros Hin. pose proof (normalize_token_chars v) as H.
  rewrite forallb_forall in H. now apply (token_char_not_underscore _ (H _ Hin)).
Qed.

Lemma token_fixed_point `{!UnicodeAscii U} t :
  is_normalized_token t = true -> normalize_field_name (VStr t) = t.
Proof.
  intros H. destruct t as [|c s]; [reflexivity|].
  rewrite normalize_str. set (t := c :: s) in *. clearbody t.
  unfold is_normalized_token in H.
  apply andb_true_iff in H as [H Hr]. apply andb_true_iff in H as [H Hs].
  apply andb_true_iff in H as [Hc Hp].
  apply str_eqb_eq in Hr. apply negb_true_iff in Hs.
  rewrite nfkd_ascii by (revert Hc; apply forallb_impl, token_char_ascii).
  rewrite filter_all.
  2:{ revert Hc. apply forallb_impl. intros x Hx.
      rewrite combining_ascii by now apply token_char_ascii. reflexivity. }
  unfold sub_spaces. rewrite sub_runs_none.
  2:{ revert Hc. apply forallb_impl. intros x Hx.
      now rewrite token_char_not_space. }
  assert (Hw : sub_non_word t = t).
  { unfold sub_non_word. clear -Hc. induction t as [|x t IH]; [reflexivity|].
    simpl in *. apply andb_true_iff in Hc as [Hx Ht].
    now rewrite (token_char_word _ Hx), IH. }
  rewrite Hw. unfold sub_hyphens.
  rewrite no_pair_sub_hyphens by (try exact Hp; discriminate).
  unfold strip_hyphens. rewrite lstrip_fixed by exact Hs.
  rewrite Hr. now apply lower_fixed.
Qed.

End Normalizer.

Lemma latin_decompose_ascii c : is_ascii c = true -> latin_decompose c = [c].
Proof.
  intros H. unfold latin_decompose.
  repeat match goal with
    | |- context [c =? ?k] =>
        destruct (Z.eqb_spec c k); [exfalso; revert H; char_class|]
    end.
  reflexivity.
Qed.

#[export] Instance latin_unicode_ascii : UnicodeAscii latin_unicode.
Proof.
  split.
  - intros s. simpl. induction s as [|c s IH]; simpl; intros H; [reflexivity|].
    apply andb_true_iff in H as [Hc Hs].
    now rewrite latin_decompose_ascii, IH.
  - intros c H. simpl. unfold latin_combining.
    repeat match goal with
      | |- context [c =? ?k] =>
          destruct (Z.eqb_spec c k); [exfalso; revert H; char_class|]
      end.
    reflexivity.
Qed.

(** ** Field Normalizer *)

(** C6.  [normalize_field_name] is a function of its argument alone, with no
    exception in its result: an input that is empty or not a string gives the
    empty token, every output is made of characters of [[a-z0-9-]], the empty
    string gives the empty token, and the display name "Statut Deploiement"
    written with an acute accent gives "statut-deploiement" (the Unicode
    tables decompose the accented letter into e and the combining mark 769). *)
Theorem normalize_total_and_clean (U : UnicodeData) (HA : UnicodeAscii U)
    (Hdec : nfkd statut_deploiement = statut_decomposed)
    (Hmark : combining 769 <> 0) :
  (forall v, isinstance_str v = false \/ v = VStr [] -> normalize_field_name v = [])
  /\ (forall v, forallb is_token_char (normalize_field_name v) = true)
  /\ normalize_field_name (VStr statut_deploiement) = u "statut-deploiement"
  /\ normalize_field_name (VStr []) = [].
Proof.
  split; [apply normalize_invalid|].
  split; [apply normalize_token_chars|].
  split; [|reflexivity].
  rewrite normalize_nonempty by discriminate.
  rewrite Hdec. unfold statut_decomposed.
  rewrite !filter_app.
  rewrite (filter_all _ (u "Statut De")).
  2:{ apply forallb_forall. intros x Hx. rewrite combining_ascii; [reflexivity|].
      revert x Hx. apply forallb_forall. reflexivity. }
  rewrite (filter_all _ (u "ploiement")).
  2:{ apply forallb_forall. intros x Hx. rewrite combining_ascii; [reflexivity|].
      revert x Hx. apply forallb_forall. reflexivity. }
  simpl filter. destruct (Z.eqb_spec (combining 769) 0) as [E|_]; [contradiction|].
  reflexivity.
Qed.

Lemma normalize_total_and_clean_witness :
  (forall v, isinstance_str v = false \/ v = VStr [] ->
             @normalize_field_name latin_unicode v = [])
  /\ (forall v, forallb is_token_char (@normalize_field_name latin_unicode v) = true)
  /\ @normalize_field_name latin_unicode (VStr statut_deploiement) = u "statut-deploiement"
  /\ @normalize_field_name latin_unicode (VStr []) = [].
Proof.
  apply (normalize_total_and_clean latin_unicode latin_unicode_ascii).
  - reflexivity.
  - unfold combining, latin_unicode, latin_combining. simpl. lia.
Defined.

(** C7.  A second pass of the normalizer over a non-empty token it produced
    gives the token back. *)
Theorem normalize_idempotent (U : UnicodeData) (HA : UnicodeAscii U) (x : value) :
  normalize_field_name x <> [] ->
  normalize_field_name (VStr (normalize_field_name x)) = normalize_field_name x.
Proof.
  intros _. apply token_fixed_point. apply normalize_shape.
Qed.

Lemma normalize_idempotent_witness :
  @normalize_field_name latin_unicode (VStr statut_deploiement) <> []
  /\ @normalize_field_name latin_unicode
       (VStr (@normalize_field_name latin_unicode (VStr statut_deploiement)))
     = @normalize_field_name latin_unicode (VStr statut_deploiement).
Proof.
  assert (H : @normalize_field_name latin_unicode (VStr statut_deploiement) <> [])
    by (vm_compute; discriminate).
  split; [exact H|].
  exact (normalize_idempotent latin_unicode latin_unicode_ascii (VStr statut_deploiement) H).
Defined.

(** ** Dictionaries *)

Lemma dict_get_set_same d k v : dict_get (dict_set d k v) k = Some v.
Proof.
  induction d as [|[k' v'] d IH]; simpl.
  - now rewrite str_eqb_refl.
  - destruct (str_eqb k' k) eqn:E; simpl; rewrite E; [reflexivity | exact IH].
Qed.

Lemma dict_get_set_other d k v k0 :
  k0 <> k -> dict_get (dict_set d k v) k0 = dict_get d k0.
Proof.
  intros N. induction d as [|[k' v'] d IH]; simpl.
  - destruct (str_eqb k k0) eqn:E; [apply str_eqb_eq in E; congruence | reflexivity].
  - destruct (str_eqb k' k) eqn:E; simpl.
    + apply str_eqb_eq in E. subst k'.
      destruct (str_eqb k k0) eqn:E0; [apply str_eqb_eq in E0; congruence | reflexivity].
    + now rewrite IH.
Qed.

Lemma dict_get_remove_other d k k0 :
  k0 <> k -> dict_get (dict_remove d k) k0 = dict_get d k0.
Proof.
  intros N. induction d as [|[k' v'] d IH]; simpl; [reflexivity|].
  destruct (str_eqb k' k) eqn:E; simpl.
  - apply str_eqb_eq in E. subst k'.
    destruct (str_eqb k k0) eqn:E0; [apply str_eqb_eq in E0; congruence | reflexivity].
  - now rewrite IH.
Qed.

Lemma dict_set_keys_present d k v :
  dict_in k d = true -> dict_keys (dict_set d k v) = dict_keys d.
Proof.
  unfold dict_in. induction d as [|[k' v'] d IH]; simpl; [discriminate|].
  destruct (str_eqb k' k) eqn:E; simpl; [reflexivity|].
  intros H. now rewrite IH.
Qed.

Lemma dict_set_keys_absent d k v :
  dict_in k d = false -> dict_keys (dict_set d k v) = dict_keys d ++ [k].
Proof.
  unfold dict_in. induction d as [|[k' v'] d IH]; simpl; [reflexivity|].
  destruct (str_eqb k' k) eqn:E; simpl; [discriminate|].
  intros H. now rewrite IH.
Qed.

Lemma dict_set_set d k v v' : dict_set (dict_set d k v) k v' = dict_set d k v'.
Proof.
  induction d as [|[k0 v0] d IH]; simpl.
  - now rewrite str_eqb_refl.
  - destruct (str_eqb k0 k) eqn:E; simpl; rewrite E; [reflexivity | now rewrite IH].
Qed.

Lemma dict_set_get d k v : dict_get d k = Some v -> dict_set d k v = d.
Proof.
  induction d as [|[k0 v0] d IH]; simpl; [discriminate|].
  destruct (str_eqb k0 k) eqn:E; intros H.
  - now injection H as ->.
  - now rewrite IH.
Qed.

Lemma dict_in_keys d k : dict_in k d = true <-> In k (dict_keys d).
Proof.
  unfold dict_in. induction d as [|[k' v'] d IH]; simpl.
  - split; [discriminate | tauto].
  - destruct (str_eqb k' k) eqn:E.
    + apply str_eqb_eq in E. split; auto.
    + apply str_eqb_neq in E. rewrite IH. split; [auto | intros [?|?]; [contradiction | assumption]].
Qed.

Lemma dict_in_keys_false d k : dict_in k d = false <-> ~ In k (dict_keys d).
Proof.
  rewrite <- dict_in_keys. destruct (dict_in k d); split; congruence.
Qed.

Lemma dict_remove_keys_subset d k k0 :
  In k0 (dict_keys (dict_remove d k)) -> In k0 (dict_keys d).
Proof.
  induction d as [|[k' v'] d IH]; simpl; [tauto|].
  destruct (str_eqb k' k); simpl; tauto.
Qed.

Lemma dict_remove_keys_other d k k0 :
  k0 <> k -> In k0 (dict_keys d) -> In k0 (dict_keys (dict_remove d k)).
Proof.
  intros N. induction d as [|[k' v'] d IH]; simpl; [tauto|].
  destruct (str_eqb k' k) eqn:E; simpl.
  - apply str_eqb_eq in E. intros [?|?]; [congruence | assumption].
  - tauto.
Qed.

Lemma dict_remove_nodup d k :
  NoDup (dict_keys d) ->
  NoDup (dict_keys (dict_remove d k)) /\ ~ In k (dict_keys (dict_remove d k)).
Proof.
  induction d as [|[k' v'] d IH]; simpl; intros H.
  - split; [constructor | tauto].
  - inversion H as [|? ? Hn Hd]; subst.
    destruct (str_eqb k' k) eqn:E.
    + apply str_eqb_eq in E. subst k'. now split.
    + apply str_eqb_neq in E. destruct (IH Hd) as [IH1 IH2]. simpl. split.
      * constructor; [|exact IH1]. intros Hin. apply Hn.
        now apply dict_remove_keys_subset in Hin.
      * intros [?|?]; [congruence | contradiction].
Qed.

Lemma dict_set_keys_in d k v k0 :
  In k0 (dict_keys (dict_set d k v)) <-> In k0 (dict_keys d) \/ k0 = k.
Proof.
  destruct (dict_in k d) eqn:E.
  - rewrite dict_set_keys_present by exact E. apply dict_in_keys in E.
    split; [auto | intros [H | H]; [exact H | now subst k0]].
  - rewrite dict_set_keys_absent by exact E. rewrite in_app_iff. simpl.
    split.
    + intros [H | [H | []]]; [now left | right; now symmetry].
    + intros [H | H]; [now left | right; left; now symmetry].
Qed.

Lemma dict_set_nodup d k v : NoDup (dict_keys d) -> NoDup (dict_keys (dict_set d k v)).
Proof.
  intros H. destruct (dict_in k d) eqn:E.
  - now rewrite dict_set_keys_present.
  - rewrite dict_set_keys_absent by exact E. apply dict_in_keys_false in E.
    apply NoDup_app; [exact H | repeat constructor; tauto |].
    intros x Hx [<-|[]]. contradiction.
Qed.

(** ** What [transform_issue] computes *)

Section TransformFacts.
Context {U : UnicodeData}.

Lemma get_normalized_spec cat i old_name :
  get_normalized_field_name (VStr old_name) {| issue := i; fields_metadata := VList cat |}
  = (inr (field_token cat old_name), {| issue := i; fields_metadata := VList cat |}).
Proof.
  unfold get_normalized_field_name, get_correspond_name_by_field_id, field_token, bind, get, ret.
  simpl. destruct (find_field_name cat old_name) as [name|]; simpl; [|reflexivity].
  destruct (truthy name); reflexivity.
Qed.

Lemma rename_step_spec cat d f old_name :
  dict_get d fields_key = Some (VDict f) ->
  rename_step old_name {| issue := VDict d; fields_metadata := VList cat |}
  = (inr tt,
     {| issue := VDict (dict_set d fields_key (VDict (rename_in_fields cat old_name f)));
        fields_metadata := VList cat |}).
Proof.
  intros Hf. unfold rename_step, bind at 1. rewrite get_normalized_spec.
  unfold rename_in_fields. fold (renames cat old_name).
  destruct (renames cat old_name).
  - unfold rename_customfield, bind, get, ret, put. simpl. rewrite Hf.
    destruct (dict_get f old_name) as [v|]; [reflexivity|].
    now rewrite dict_set_get.
  - unfold ret. now rewrite dict_set_get.
Qed.

Lemma for_each_rename_spec cat names : forall d f,
  dict_get d fields_key = Some (VDict f) ->
  for_each names rename_step {| issue := VDict d; fields_metadata := VList cat |}
  = (inr tt,
     {| issue := VDict (dict_set d fields_key
                   (VDict (fold_left (fun f old_name => rename_in_fields cat old_name f) names f)));
        fields_metadata := VList cat |}).
Proof.
  induction names as [|old_name names IH]; intros d f Hf.
  - simpl. unfold ret. now rewrite dict_set_get.
  - simpl for_each. unfold bind. rewrite (rename_step_spec cat d f old_name Hf).
    rewrite (IH _ (rename_in_fields cat old_name f)) by apply dict_get_set_same.
    now rewrite dict_set_set.
Qed.

Lemma transform_spec cat d f :
  dict_get d fields_key = Some (VDict f) ->
  run_transform (VDict d) (VList cat)
  = (inr tt,
     {| issue := VDict (dict_set d fields_key (VDict (transformed_fields cat f)));
        fields_metadata := VList cat |}).
Proof.
  intros Hf. unfold run_transform, transform_issue, bind at 1, get. simpl.
  unfold dict_in. rewrite Hf. simpl.
  unfold bind, get_custom_fields_names, bind, get, ret. simpl. rewrite Hf.
  now apply for_each_rename_spec.
Qed.

(** A name that starts with [customfield_] holds an underscore. *)
Lemma startswith_In prefix : forall s c,
  startswith prefix s = true -> In c prefix -> In c s.
Proof.
  induction prefix as [|p prefix IH]; intros s c H Hin; [contradiction|].
  destruct s as [|x s]; [discriminate|]. simpl in H.
  apply andb_true_iff in H as [Hp Hs]. apply Z.eqb_eq in Hp. subst x.
  destruct Hin as [->|Hin]; [now left | right; eauto].
Qed.

Lemma customfield_underscore s :
  startswith customfield_prefix s = true -> In underscore s.
Proof.
  intros H. apply (startswith_In _ _ _ H). vm_compute. tauto.
Qed.

Lemma field_token_no_underscore cat k : ~ In underscore (field_token cat k).
Proof.
  unfold field_token. destruct (find_field_name cat k) as [name|]; [|tauto].
  destruct (truthy name); [apply normalize_no_underscore | tauto].
Qed.

(** A normalized name is never the identifier of a dynamic field. *)
Lemma field_token_not_custom cat k :
  startswith customfield_prefix (field_token cat k) = false.
Proof.
  apply not_true_is_false. intros H.
  exact (field_token_no_underscore cat k (customfield_underscore _ H)).
Qed.

Lemma token_neq_custom cat k k0 :
  startswith customfield_prefix k0 = true -> field_token cat k <> k0.
Proof.
  intros H E. rewrite <- E, field_token_not_custom in H. discriminate.
Qed.

End TransformFacts.

(** ** Record Transformer: validation *)

Section Validation.
Context {U : UnicodeData}.

Lemma transform_not_dict i m :
  isinstance_dict i = false ->
  run_transform i m = (inl (ValueError MsgIssueNotDict), {| issue := i; fields_metadata := m |}).
Proof. destruct i; try discriminate; reflexivity. Qed.

Lemma transform_no_fields d m :
  dict_get d fields_key = None ->
  run_transform (VDict d) m
  = (inl (ValueError MsgIssueNoFields), {| issue := VDict d; fields_metadata := m |}).
Proof.
  intros H. unfold run_transform, transform_issue, bind, get, raise, dict_in. simpl.
  now rewrite H.
Qed.

Lemma transform_not_list d x m :
  dict_get d fields_key = Some x -> isinstance_list m = false ->
  run_transform (VDict d) m
  = (inl (ValueError MsgMetadataNotList), {| issue := VDict d; fields_metadata := m |}).
Proof.
  intros H Hm. unfold run_transform, transform_issue, bind, get, raise, dict_in. simpl.
  now rewrite H, Hm.
Qed.

Lemma transform_fields_not_dict d x cat :
  dict_get d fields_key = Some x -> isinstance_dict x = false ->
  run_transform (VDict d) (VList cat)
  = (inl AttributeError, {| issue := VDict d; fields_metadata := VList cat |}).
Proof.
  intros H Hx.
  unfold run_transform, transform_issue, get_custom_fields_names, bind, get, raise, dict_in.
  simpl. rewrite H. simpl. rewrite H.
  destruct x; try discriminate; reflexivity.
Qed.

Lemma transform_cases i m : transform_case i m (run_transform i m).
Proof.
  destruct (isinstance_dict i) eqn:Ei.
  2:{ rewrite transform_not_dict by exact Ei. now constructor. }
  destruct i as [| | | | |d]; try discriminate.
  destruct (dict_get d fields_key) as [x|] eqn:Ef.
  2:{ rewrite transform_no_fields by exact Ef. apply (CaseNoFields _ _ d); [reflexivity|].
      unfold dict_in. now rewrite Ef. }
  assert (Hin : dict_in fields_key d = true) by (unfold dict_in; now rewrite Ef).
  destruct (isinstance_list m) eqn:Em.
  2:{ rewrite (transform_not_list d x m Ef Em). now apply (CaseNotList _ _ d). }
  destruct m as [| | | |cat|]; try discriminate.
  destruct (isinstance_dict x) eqn:Ex.
  - destruct x as [| | | | |f]; try discriminate.
    rewrite (transform_spec cat d f Ef). now apply (CaseRenamed _ _ d f cat).
  - rewrite (transform_fields_not_dict d x cat Ef Ex).
    now apply (CaseFieldsNotDict _ _ d x cat).
Qed.

End Validation.

Ltac validation_case :=
  try discriminate; try congruence; try tauto;
  try (intuition (try discriminate; try congruence)).

(** C3, as stated, does not hold: a record whose [fields] entry is [None]
    has no [fields] sub-mapping, and [transform_issue] does not raise a
    [ValueError] on it (it raises [AttributeError] at [fields.keys()]). *)
Lemma transform_validation_counterexample :
  fst (@run_transform latin_unicode (VDict [(fields_key, VNone)]) (VList []))
  = inl AttributeError
  /\ ~ (forall i m : value,
          is_value_error (fst (@run_transform latin_unicode i m)) = true
          <-> stated_preconditions i m = false).
Proof.
  split; [reflexivity|]. intros H.
  destruct (H (VDict [(fields_key, VNone)]) (VList [])) as [_ H2].
  specialize (H2 eq_refl). vm_compute in H2. discriminate.
Qed.

(** C3, amended.  [transform_issue] raises a [ValueError] exactly when one of
    its three tests fails: the record is no dictionary, the record has no key
    [fields], the catalog is no list; each test has a message of its own and
    the first failing test gives the message.  When the three tests pass, a
    record whose [fields] entry is no mapping fails with the [AttributeError]
    of [fields.keys()], and every other record is transformed without
    exception.  Whatever the exception, the record and the catalog are left as
    they were. *)
Theorem transform_validation (U : UnicodeData) (i m : value) :
  let r := run_transform i m in
  (is_value_error (fst r) = true <-> checked_preconditions i m = false)
  /\ (fst r = inl (ValueError MsgIssueNotDict) <-> isinstance_dict i = false)
  /\ (fst r = inl (ValueError MsgIssueNoFields)
      <-> isinstance_dict i = true /\ has_fields_key i = false)
  /\ (fst r = inl (ValueError MsgMetadataNotList)
      <-> isinstance_dict i = true /\ has_fields_key i = true /\ isinstance_list m = false)
  /\ (fst r = inl AttributeError
      <-> checked_preconditions i m = true /\ has_fields_submapping i = false)
  /\ (fst r = inr tt
      <-> checked_preconditions i m = true /\ has_fields_submapping i = true)
  /\ (forall e, fst r = inl e -> is_value_error (fst r) = false ->
        e = AttributeError /\ has_fields_submapping i = false)
  /\ (forall e, fst r = inl e -> snd r = {| issue := i; fields_metadata := m |}).
Proof.
  intros r. subst r. unfold checked_preconditions.
  destruct (transform_cases i m) as [Hi | d -> Hd | d -> Hd Hm | d x cat -> -> Hx Hnd | d f cat -> -> Hf];
    simpl fst; simpl snd.
  - rewrite Hi. simpl. destruct i; try discriminate; repeat split; validation_case.
  - simpl. rewrite Hd. simpl. unfold dict_in in Hd.
    destruct (dict_get d fields_key); [discriminate|]. repeat split; validation_case.
  - simpl. rewrite Hd, Hm. simpl. repeat split; validation_case.
  - assert (Hin : dict_in fields_key d = true) by (unfold dict_in; now rewrite Hx).
    simpl. rewrite Hin, Hx. simpl.
    destruct x; try discriminate; repeat split; validation_case.
  - assert (Hin : dict_in fields_key d = true) by (unfold dict_in; now rewrite Hf).
    simpl. rewrite Hin, Hf. simpl. repeat split; validation_case.
Qed.

(** ** The renaming loop on the [fields] dictionary *)

Section RenameFacts.
Context {U : UnicodeData}.
Variable cat : list value.

Local Abbreviation rename_all := (fold_left (fun f old_name => rename_in_fields cat old_name f)).

Lemma renames_token_neq old_name : renames cat old_name = true -> field_token cat old_name <> old_name.
Proof.
  unfold renames. intros H. apply andb_true_iff in H as [_ H].
  apply negb_true_iff in H. now apply str_eqb_neq.
Qed.

Lemma renames_custom old_name :
  startswith customfield_prefix old_name = true ->
  renames cat old_name = true <-> field_token cat old_name <> [].
Proof.
  intros Hc. unfold renames.
  assert (N : str_eqb (field_token cat old_name) old_name = false)
    by (apply str_eqb_neq; now apply token_neq_custom).
  rewrite N. simpl. rewrite andb_true_r.
  destruct (field_token cat old_name); split; congruence.
Qed.

Lemma rename_get_other old_name f k :
  k <> old_name -> k <> field_token cat old_name ->
  dict_get (rename_in_fields cat old_name f) k = dict_get f k.
Proof.
  intros N1 N2. unfold rename_in_fields.
  destruct (renames cat old_name); [|reflexivity].
  destruct (dict_get f old_name); [|reflexivity].
  now rewrite dict_get_set_other, dict_get_remove_other.
Qed.

Lemma rename_get_new old_name f v :
  renames cat old_name = true -> dict_get f old_name = Some v ->
  dict_get (rename_in_fields cat old_name f) (field_token cat old_name) = Some v.
Proof.
  intros Hr Hv. unfold rename_in_fields. rewrite Hr, Hv. apply dict_get_set_same.
Qed.

Lemma rename_keys_in old_name f k :
  In k (dict_keys (rename_in_fields cat old_name f)) ->
  In k (dict_keys f) \/ k = field_token cat old_name.
Proof.
  unfold rename_in_fields. destruct (renames cat old_name); [|tauto].
  destruct (dict_get f old_name); [|tauto].
  rewrite dict_set_keys_in. intros [H|H]; [left | now right].
  now apply dict_remove_keys_subset in H.
Qed.

Lemma rename_removed old_name f :
  NoDup (dict_keys f) -> renames cat old_name = true -> In old_name (dict_keys f) ->
  ~ In old_name (dict_keys (rename_in_fields cat old_name f)).
Proof.
  intros Hnd Hr Hin. unfold rename_in_fields. rewrite Hr.
  apply dict_in_keys in Hin. unfold dict_in in Hin.
  destruct (dict_get f old_name); [|discriminate].
  rewrite dict_set_keys_in. intros [H|H].
  - now apply (dict_remove_nodup f old_name Hnd).
  - symmetry in H. now apply renames_token_neq in H.
Qed.

Lemma rename_nodup old_name f :
  NoDup (dict_keys f) -> NoDup (dict_keys (rename_in_fields cat old_name f)).
Proof.
  intros Hnd. unfold rename_in_fields. destruct (renames cat old_name); [|exact Hnd].
  destruct (dict_get f old_name); [|exact Hnd].
  apply dict_set_nodup. now apply dict_remove_nodup.
Qed.

Lemma rename_keeps old_name f k :
  In k (dict_keys f) -> k <> old_name ->
  In k (dict_keys (rename_in_fields cat old_name f)).
Proof.
  intros Hin N. unfold rename_in_fields. destruct (renames cat old_name); [|exact Hin].
  destruct (dict_get f old_name); [|exact Hin].
  apply dict_set_keys_in. left. now apply dict_remove_keys_other.
Qed.

Lemma rename_all_get_other names : forall f k,
  (forall n, In n names -> k <> n /\ k <> field_token cat n) ->
  dict_get (rename_all names f) k = dict_get f k.
Proof.
  induction names as [|n names IH]; intros f k H; [reflexivity|].
  simpl. rewrite IH by (intros; apply H; now right).
  destruct (H n (or_introl eq_refl)). now apply rename_get_other.
Qed.

Lemma rename_all_keeps names : forall f k,
  In k (dict_keys f) -> ~ In k names -> In k (dict_keys (rename_all names f)).
Proof.
  induction names as [|n names IH]; intros f k Hin Hn; [exact Hin|].
  simpl. apply IH; [|intros ?; apply Hn; now right].
  apply rename_keeps; [exact Hin|]. intros ->. apply Hn. now left.
Qed.

Lemma rename_all_nodup names : forall f,
  NoDup (dict_keys f) -> NoDup (dict_keys (rename_all names f)).
Proof.
  induction names as [|n names IH]; intros f H; [exact H|].
  simpl. now apply IH, rename_nodup.
Qed.

Lemma rename_all_id names : forall f,
  (forall n, In n names -> renames cat n = false) -> rename_all names f = f.
Proof.
  induction names as [|n names IH]; intros f H; [reflexivity|].
  simpl. unfold rename_in_fields at 2. rewrite (H n (or_introl eq_refl)).
  apply IH. intros; apply H; now right.
Qed.

(** A dynamic field still present after the loop was there before it, and
    the loop did not rename it. *)
Lemma rename_all_custom_left names : forall f k,
  NoDup (dict_keys f) ->
  startswith customfield_prefix k = true ->
  In k (dict_keys (rename_all names f)) ->
  In k (dict_keys f) /\ (In k names -> renames cat k = false).
Proof.
  induction names as [|n names IH]; intros f k Hnd Hc Hin; [split; [exact Hin | contradiction]|].
  simpl in Hin. destruct (IH _ k (rename_nodup n f Hnd) Hc Hin) as [H1 H2].
  assert (Hf : In k (dict_keys f)).
  { destruct (rename_keys_in n f k H1) as [H|H]; [exact H|].
    symmetry in H. now apply token_neq_custom in H. }
  split; [exact Hf|].
  intros [->|Hn]; [|now apply H2].
  destruct (renames cat k) eqn:Er; [|reflexivity].
  exfalso. now apply (rename_removed k f Hnd Er Hf).
Qed.

End RenameFacts.

Lemma dict_get_middle (f1 f2 : dict) k v :
  ~ In k (dict_keys f1) -> dict_get (f1 ++ (k, v) :: f2) k = Some v.
Proof.
  induction f1 as [|[k' v'] f1 IH]; simpl; intros H.
  - now rewrite str_eqb_refl.
  - destruct (str_eqb k' k) eqn:E; [apply str_eqb_eq in E; tauto|]. apply IH. tauto.
Qed.

(** ** Record Transformer: renaming *)

Lemma normalized_name_token {U : UnicodeData} i cat k :
  normalized_name i (VList cat) k = inr (field_token cat k).
Proof. unfold normalized_name. now rewrite get_normalized_spec. Qed.

Lemma normalize_ascii {U : UnicodeData} `{!UnicodeAscii U} s :
  s <> [] -> forallb is_ascii s = true ->
  normalize_field_name (VStr s)
  = lower (strip_hyphens (sub_hyphens (sub_non_word (sub_spaces s)))).
Proof.
  intros Hs Ha. rewrite normalize_nonempty by exact Hs.
  rewrite nfkd_ascii by exact Ha. rewrite filter_all; [reflexivity|].
  revert Ha. apply forallb_impl. intros c Hc. now rewrite combining_ascii.
Qed.

Lemma root_cause_token {U : UnicodeData} `{!UnicodeAscii U} :
  field_token
    [VDict [(id_key, VStr customfield_100); (name_key, VStr (u "Root Cause"))]]
    customfield_100
  = u "root-cause".
Proof.
  change (field_token _ _) with (normalize_field_name (VStr (u "Root Cause"))).
  rewrite normalize_ascii by (try discriminate; reflexivity).
  reflexivity.
Qed.

(** C5.  A record whose fields are [{customfield_100: X}], transformed with
    the catalog [[{id: customfield_100, name: Root Cause}]], has the fields
    [{root-cause: X}]: the value sits under the normalized key and the key
    [customfield_100] is gone. *)
Theorem transform_root_cause_example (U : UnicodeData) (HA : UnicodeAscii U) (d : dict) :
  dict_get d fields_key = Some (VDict [(customfield_100, VStr (u "X"))]) ->
  exists f',
    run_transform (VDict d) root_cause_catalog
    = (inr tt, {| issue := VDict (dict_set d fields_key (VDict f'));
                  fields_metadata := root_cause_catalog |})
    /\ f' = [(u "root-cause", VStr (u "X"))]
    /\ dict_in customfield_100 f' = false.
Proof.
  intros Hf. eexists. split; [|split; [reflexivity|reflexivity]].
  unfold root_cause_catalog. rewrite (transform_spec _ d _ Hf).
  do 3 f_equal. f_equal.
  change (transformed_fields ?c ?f) with (rename_in_fields c customfield_100 f).
  unfold rename_in_fields, renames. rewrite root_cause_token. reflexivity.
Qed.

Lemma transform_root_cause_example_witness :
  exists f',
    @run_transform latin_unicode
      (VDict [(u "key", VStr (u "P-1")); (fields_key, VDict [(customfield_100, VStr (u "X"))])])
      root_cause_catalog
    = (inr tt, {| issue := VDict (dict_set
                     [(u "key", VStr (u "P-1")); (fields_key, VDict [(customfield_100, VStr (u "X"))])]
                     fields_key (VDict f'));
                  fields_metadata := root_cause_catalog |})
    /\ f' = [(u "root-cause", VStr (u "X"))]
    /\ dict_in customfield_100 f' = false.
Proof.
  apply (transform_root_cause_example latin_unicode latin_unicode_ascii). reflexivity.
Defined.

Lemma filter_custom_split (k1 k2 k3 : list str) a b :
  startswith customfield_prefix a = true -> startswith customfield_prefix b = true ->
  filter (startswith customfield_prefix) (k1 ++ a :: k2 ++ b :: k3)
  = (filter (startswith customfield_prefix) k1 ++ a :: filter (startswith customfield_prefix) k2)
    ++ b :: filter (startswith customfield_prefix) k3.
Proof.
  intros Ha Hb. rewrite filter_app. cbn [filter]. rewrite Ha, filter_app.
  cbn [filter]. rewrite Hb. now rewrite <- app_assoc.
Qed.

(** C4.  When two dynamic fields [a] and [b] of a record get the same
    normalized name [t], [b] coming later in the fields mapping and no dynamic
    field after [b] getting [t] too, the value under [t] after the transform is
    the value [b] had: the value moved there from [a] is overwritten. *)
Theorem collision_last_wins (U : UnicodeData) (d : dict) (cat : list value)
    (f1 f2 f3 : dict) (a b : str) (va vb : value) (t : str) :
  let f := f1 ++ (a, va) :: f2 ++ (b, vb) :: f3 in
  let i := VDict d in
  let m := VList cat in
  dict_get d fields_key = Some (VDict f) ->
  NoDup (dict_keys f) ->
  startswith customfield_prefix a = true ->
  startswith customfield_prefix b = true ->
  normalized_name i m a = inr t ->
  normalized_name i m b = inr t ->
  t <> [] ->
  (forall c, In c (dict_keys f3) -> startswith customfield_prefix c = true ->
             normalized_name i m c <> inr t) ->
  exists d' f',
    run_transform i m = (inr tt, {| issue := VDict d'; fields_metadata := m |})
    /\ dict_get d' fields_key = Some (VDict f')
    /\ dict_get f' t = Some vb.
Proof.
  intros f i m Hf Hnd Ha Hb Hta Htb Ht Hlast. subst i m.
  rewrite normalized_name_token in Hta, Htb.
  injection Hta as Hta. injection Htb as Htb.
  exists (dict_set d fields_key (VDict (transformed_fields cat f))), (transformed_fields cat f).
  split; [now apply transform_spec|]. split; [apply dict_get_set_same|].
  unfold transformed_fields.
  assert (Hk : dict_keys f = dict_keys f1 ++ a :: dict_keys f2 ++ b :: dict_keys f3).
  { subst f. unfold dict_keys. rewrite map_app. simpl. now rewrite map_app. }
  rewrite Hk, (filter_custom_split _ _ _ a b Ha Hb), fold_left_app. cbn [fold_left].
  set (n1 := filter _ (dict_keys f1) ++ a :: filter _ (dict_keys f2)).
  assert (Hn1 : forall n, In n n1 -> n <> b /\ startswith customfield_prefix n = true).
  { intros n Hn. unfold n1 in Hn. rewrite Hk in Hnd.
    replace (dict_keys f1 ++ a :: dict_keys f2 ++ b :: dict_keys f3)
      with ((dict_keys f1 ++ a :: dict_keys f2) ++ b :: dict_keys f3) in Hnd
      by (rewrite <- app_assoc; reflexivity).
    apply NoDup_remove_2 in Hnd. rewrite in_app_iff in Hnd.
    rewrite in_app_iff in Hn. simpl in Hn. rewrite !filter_In in Hn.
    split.
    - intros ->. apply Hnd. rewrite in_app_iff. simpl. tauto.
    - destruct Hn as [[_ H]|[<-|[_ H]]]; assumption. }
  assert (Hvb : dict_get (fold_left (fun f0 o => rename_in_fields cat o f0) n1 f) b = Some vb).
  { rewrite rename_all_get_other.
    - subst f.
      replace (f1 ++ (a, va) :: f2 ++ (b, vb) :: f3)
        with ((f1 ++ (a, va) :: f2) ++ (b, vb) :: f3)
        by (rewrite <- app_assoc; reflexivity).
      apply dict_get_middle.
      rewrite Hk in Hnd.
      replace (dict_keys f1 ++ a :: dict_keys f2 ++ b :: dict_keys f3)
        with (dict_keys (f1 ++ (a, va) :: f2) ++ b :: dict_keys f3) in Hnd
        by (unfold dict_keys; rewrite map_app, <- app_assoc; reflexivity).
      now apply NoDup_remove_2 in Hnd; rewrite in_app_iff in Hnd; tauto.
    - intros n Hn. destruct (Hn1 n Hn) as [N _]. split; [congruence|].
      intros E. symmetry in E. now apply token_neq_custom in E. }
  assert (Hr : renames cat b = true) by (apply renames_custom; congruence).
  rewrite rename_all_get_other.
  - rewrite <- Htb. now apply rename_get_new.
  - intros n Hn. apply filter_In in Hn as [Hn Hc]. split.
    + intros E. rewrite <- E, <- Htb, field_token_not_custom in Hc. discriminate.
    + intros E. apply (Hlast n Hn Hc). rewrite normalized_name_token. now rewrite <- E.
Qed.

Lemma collision_last_wins_witness :
  exists d' f',
    @run_transform latin_unicode
      (VDict [(fields_key, VDict [(customfield_1, VStr (u "A")); (customfield_2, VStr (u "B"))])])
      (VList twin_catalog)
    = (inr tt, {| issue := VDict d'; fields_metadata := VList twin_catalog |})
    /\ dict_get d' fields_key = Some (VDict f')
    /\ dict_get f' (u "root-cause") = Some (VStr (u "B")).
Proof.
  apply (collision_last_wins latin_unicode
           [(fields_key, VDict [(customfield_1, VStr (u "A")); (customfield_2, VStr (u "B"))])]
           twin_catalog [] [] [] customfield_1 customfield_2 (VStr (u "A")) (VStr (u "B"))
           (u "root-cause")).
  - reflexivity.
  - repeat constructor; simpl; intros H; repeat destruct H as [H|H]; try discriminate; exact H.
  - reflexivity.
  - reflexivity.
  - reflexivity.
  - reflexivity.
  - discriminate.
  - intros c [].
Defined.

(** C9.  On a record with a [fields] mapping and a catalog that is a list, a
    second [transform_issue] with the same catalog returns the record the
    first one left, unchanged.  The reason is in the last two parts: a
    normalized name holds no underscore, so is no dynamic field itself, and
    every dynamic field the first pass left in place is one the loop does not
    rename. *)
Theorem transform_idempotent (U : UnicodeData) (d f : dict) (cat : list value) :
  dict_get d fields_key = Some (VDict f) ->
  NoDup (dict_keys f) ->
  exists st,
    run_transform (VDict d) (VList cat) = (inr tt, st)
    /\ run_transform (issue st) (fields_metadata st) = (inr tt, st)
    /\ (forall v, ~ In underscore (normalize_field_name v))
    /\ (forall d' f' k,
          issue st = VDict d' -> dict_get d' fields_key = Some (VDict f') ->
          In k (dict_keys f') -> startswith customfield_prefix k = true ->
          In k (dict_keys f)
          /\ (normalized_name (issue st) (VList cat) k = inr []
              \/ normalized_name (issue st) (VList cat) k = inr k)).
Proof.
  intros Hf Hnd.
  set (f1 := transformed_fields cat f).
  set (d1 := dict_set d fields_key (VDict f1)).
  assert (Hleft : forall k, In k (dict_keys f1) -> startswith customfield_prefix k = true ->
                            In k (dict_keys f) /\ renames cat k = false).
  { intros k Hk Hc. unfold f1, transformed_fields in Hk.
    destruct (rename_all_custom_left cat _ f k Hnd Hc Hk) as [H1 H2].
    split; [exact H1|]. apply H2. apply filter_In. now split. }
  exists {| issue := VDict d1; fields_metadata := VList cat |}.
  split; [now apply transform_spec|]. split; [|split].
  - simpl. rewrite (transform_spec cat d1 f1) by apply dict_get_set_same.
    do 3 f_equal. unfold d1. rewrite dict_set_set. do 2 f_equal.
    unfold transformed_fields. apply rename_all_id.
    intros n Hn. apply filter_In in Hn as [Hn Hc]. now apply Hleft.
  - apply normalize_no_underscore.
  - simpl. intros d' f' k Ed Hf' Hk Hc. injection Ed as <-.
    unfold d1 in Hf'. rewrite dict_get_set_same in Hf'. injection Hf' as <-.
    destruct (Hleft k Hk Hc) as [H1 H2]. split; [exact H1|].
    rewrite normalized_name_token. left. f_equal.
    destruct (field_token cat k) eqn:E; [reflexivity|].
    assert (renames cat k = true)
      by (apply renames_custom; [exact Hc | rewrite E; discriminate]).
    congruence.
Qed.

Lemma transform_idempotent_witness :
  exists st,
    @run_transform latin_unicode
      (VDict [(fields_key, VDict [(customfield_1, VStr (u "A")); (customfield_100, VStr (u "B"))])])
      (VList twin_catalog) = (inr tt, st)
    /\ @run_transform latin_unicode (issue st) (fields_metadata st) = (inr tt, st)
    /\ (forall v, ~ In underscore (@normalize_field_name latin_unicode v))
    /\ (forall d' f' k,
          issue st = VDict d' -> dict_get d' fields_key = Some (VDict f') ->
          In k (dict_keys f') -> startswith customfield_prefix k = true ->
          In k (dict_keys [(customfield_1, VStr (u "A")); (customfield_100, VStr (u "B"))])
          /\ (@normalized_name latin_unicode (issue st) (VList twin_catalog) k = inr []
              \/ @normalized_name latin_unicode (issue st) (VList twin_catalog) k = inr k)).
Proof.
  apply (transform_idempotent latin_unicode
           [(fields_key, VDict [(customfield_1, VStr (u "A")); (customfield_100, VStr (u "B"))])]
           [(customfield_1, VStr (u "A")); (customfield_100, VStr (u "B"))] twin_catalog).
  - reflexivity.
  - repeat constructor; simpl; intros H; repeat destruct H as [H|H]; try discriminate; exact H.
Defined.

(** C10.  [transform_issue] writes only into the [fields] mapping: the record
    keeps its top-level keys, each key other than [fields] keeps its value,
    and every key of [fields] that does not start with [customfield_] is still
    a key of [fields] afterwards.  The catalog is the same afterwards. *)
Theorem transform_frame (U : UnicodeData) (d f : dict) (cat : list value) :
  dict_get d fields_key = Some (VDict f) ->
  exists d' f',
    run_transform (VDict d) (VList cat)
    = (inr tt, {| issue := VDict d'; fields_metadata := VList cat |})
    /\ dict_keys d' = dict_keys d
    /\ (forall k, k <> fields_key -> dict_get d' k = dict_get d k)
    /\ dict_get d' fields_key = Some (VDict f')
    /\ (forall k, In k (dict_keys f) -> startswith customfield_prefix k = false ->
                  In k (dict_keys f')).
Proof.
  intros Hf.
  exists (dict_set d fields_key (VDict (transformed_fields cat f))), (transformed_fields cat f).
  split; [now apply transform_spec|]. split; [|split; [|split]].
  - apply dict_set_keys_present. unfold dict_in. now rewrite Hf.
  - intros k N. now apply dict_get_set_other.
  - apply dict_get_set_same.
  - intros k Hk Hc. unfold transformed_fields. apply rename_all_keeps; [exact Hk|].
    intros Hin. apply filter_In in Hin as [_ Hin]. congruence.
Qed.

Lemma transform_frame_witness :
  exists d' f',
    @run_transform latin_unicode
      (VDict [(u "key", VStr (u "P-1"));
              (fields_key, VDict [(u "summary", VStr (u "S")); (customfield_100, VStr (u "X"))])])
      root_cause_catalog
    = (inr tt, {| issue := VDict d'; fields_metadata := root_cause_catalog |})
    /\ dict_keys d' = [u "key"; fields_key]
    /\ (forall k, k <> fields_key ->
          dict_get d' k
          = dict_get [(u "key", VStr (u "P-1"));
                      (fields_key, VDict [(u "summary", VStr (u "S")); (customfield_100, VStr (u "X"))])] k)
    /\ dict_get d' fields_key = Some (VDict f')
    /\ (forall k, In k [u "summary"; customfield_100] ->
          startswith customfield_prefix k = false -> In k (dict_keys f')).
Proof.
  apply (transform_frame latin_unicode
           [(u "key", VStr (u "P-1"));
            (fields_key, VDict [(u "summary", VStr (u "S")); (customfield_100, VStr (u "X"))])]
           [(u "summary", VStr (u "S")); (customfield_100, VStr (u "X"))]).
  reflexivity.
Defined.

(** The value of a fixed field is not protected: a dynamic field whose
    normalized name is the key of a fixed field takes its place. *)
Example transform_overwrites_fixed_field :
  @run_transform latin_unicode
    (VDict [(fields_key, VDict [(u "root-cause", VStr (u "old")); (customfield_100, VStr (u "X"))])])
    root_cause_catalog
  = (inr tt,
     {| issue := VDict [(fields_key, VDict [(u "root-cause", VStr (u "X"))])];
        fields_metadata := root_cause_catalog |}).
Proof. reflexivity. Qed.


(** ** Traces *)

Lemma extends_ret {A} (P : event -> Prop) (a : A) : extends P (ret a).
Proof. intros t. exists []. split; [now rewrite app_nil_r | constructor]. Qed.

Lemma extends_raise {A} (P : event -> Prop) e : extends P (@raise trace A e).
Proof. intros t. exists []. split; [now rewrite app_nil_r | constructor]. Qed.

Lemma extends_emit (P : event -> Prop) ev : P ev -> extends P (emit ev).
Proof. intros H t. exists [ev]. split; [reflexivity | now repeat constructor]. Qed.

Lemma extends_bind {A B} (P : event -> Prop) (m : M trace A) (k : A -> M trace B) :
  extends P m -> (forall a, extends P (k a)) -> extends P (bind m k).
Proof.
  intros Hm Hk t. destruct (Hm t) as [t1 [E1 F1]]. unfold bind.
  destruct (m t) as [[e|a] s]; simpl in E1; subst s.
  - now exists t1.
  - destruct (Hk a (t ++ t1)) as [t2 [E2 F2]]. exists (t1 ++ t2).
    rewrite E2, app_assoc. split; [reflexivity | now apply Forall_app].
Qed.

Lemma extends_for_each {A} (P : event -> Prop) (xs : list A) (body : A -> M trace unit) :
  (forall x, extends P (body x)) -> extends P (for_each xs body).
Proof.
  intros H. induction xs as [|x xs IH]; simpl.
  - apply extends_ret.
  - apply extends_bind; [apply H | intros _; exact IH].
Qed.

Lemma extends_try_except (P : event -> Prop) body handler :
  extends P body -> (forall e, extends P (handler e)) -> extends P (try_except body handler).
Proof.
  intros Hb Hh t. destruct (Hb t) as [t1 [E1 F1]]. unfold try_except.
  destruct (body t) as [[e|a] s]; simpl in E1; subst s.
  - destruct (Hh e (t ++ t1)) as [t2 [E2 F2]]. exists (t1 ++ t2).
    rewrite E2, app_assoc. split; [reflexivity | now apply Forall_app].
  - now exists t1.
Qed.

Lemma extends_weaken {A} (P Q : event -> Prop) (m : M trace A) :
  (forall e, P e -> Q e) -> extends P m -> extends Q m.
Proof.
  intros H Hm t. destruct (Hm t) as [t' [E F]]. exists t'. split; [exact E|].
  revert F. apply Forall_impl. exact H.
Qed.

Lemma extends_getitem P v k : extends P (@getitem trace v k).
Proof.
  unfold getitem. destruct v; try apply extends_raise.
  destruct (dict_get kv k); [apply extends_ret | apply extends_raise].
Qed.

Lemma extends_get_method P v k dflt : extends P (@dict_get_method trace v k dflt).
Proof.
  unfold dict_get_method. destruct v; try apply extends_raise.
  destruct (dict_get kv k); apply extends_ret.
Qed.

Lemma extends_iterate P v : extends P (@iterate trace v).
Proof. unfold iterate. destruct v; try apply extends_raise; apply extends_ret. Qed.

Lemma extends_len P v : extends P (@len trace v).
Proof. unfold len. destruct v; try apply extends_raise; apply extends_ret. Qed.

Lemma extends_path_join P env a b : extends P (os_path_join env a b).
Proof. unfold os_path_join. destruct b; try apply extends_raise; apply extends_ret. Qed.

Section Storage.
Variable env : environment.
Variable config : Config.

Lemma extends_session_get (P : event -> Prop) request :
  P request -> extends P (session_get env request).
Proof. intros H t. exists [request]. split; [reflexivity | now repeat constructor]. Qed.

Lemma extends_check_response P r : extends P (_check_response r).
Proof. unfold _check_response. destruct (negb (ok r)); [apply extends_raise | apply extends_ret]. Qed.

Lemma extends_response_json P r : extends P (response_json r).
Proof. unfold response_json. destruct (json r); [apply extends_raise | apply extends_ret]. Qed.

Lemma extends_download_one url name dir : extends storage_event (download_one env url name dir).
Proof.
  unfold download_one. apply extends_bind; [now apply extends_session_get|]. intros r.
  destruct (status_code r =? 200); [|now apply extends_emit].
  apply extends_bind; [apply extends_path_join|]. intros path.
  apply extends_bind; [|intros _; now apply extends_emit].
  intros t. destruct (open_error env t path).
  - exists []. split; [now rewrite app_nil_r | constructor].
  - exists [WriteFile path (content r)]. split; [reflexivity | now repeat constructor].
Qed.

Lemma extends_download_attachments key atts dir :
  extends storage_event (download_attachments env key atts dir).
Proof.
  unfold download_attachments. apply extends_bind; [apply extends_iterate|]. intros xs.
  apply extends_for_each. intros a.
  apply extends_bind; [apply extends_getitem|]. intros url.
  apply extends_bind; [apply extends_getitem|]. intros name.
  apply extends_try_except; [apply extends_download_one|].
  intros e. now apply extends_emit.
Qed.

Lemma extends_save_issue i : extends storage_event (save_issue env config i).
Proof.
  unfold save_issue. apply extends_bind; [apply extends_get_method|]. intros key.
  apply extends_bind.
  { unfold create_issue_folder. apply extends_bind; [apply extends_path_join|]. intros dir.
    apply extends_bind; [|intros _; apply extends_ret].
    intros t. destruct (makedirs_error env t dir).
    - exists []. split; [now rewrite app_nil_r | constructor].
    - exists [Makedirs dir]. split; [reflexivity | now repeat constructor]. }
  intros dir. apply extends_bind.
  { unfold save_json. apply extends_bind; [apply extends_path_join|]. intros path.
    intros t. destruct (open_error env t path).
    - exists []. split; [now rewrite app_nil_r | constructor].
    - exists [WriteJson path i]. split; [reflexivity | now repeat constructor]. }
  intros _. apply extends_bind; [apply extends_get_method|]. intros fields.
  apply extends_bind; [apply extends_get_method|]. intros atts.
  destruct (truthy atts); [apply extends_download_attachments | now apply extends_emit].
Qed.

End Storage.

(** ** Attachments *)

Lemma attachment_attempts_app t1 t2 :
  attachment_attempts (t1 ++ t2) = attachment_attempts t1 ++ attachment_attempts t2.
Proof. unfold attachment_attempts. apply flat_map_app. Qed.


Section Attachments.
Variable env : environment.




End Attachments.

(** What the three downloads of [failing_downloads] leave in the trace: an
    exception, a status 404 and a file that cannot be opened. *)
Example failing_downloads_trace :
  snd (save_issue failing_downloads config_50 (VDict issue_with_attachments) [])
  = [Makedirs (u "data/P-7");
     WriteJson (u "data/P-7/P-7.json") (VDict issue_with_attachments);
     AttachmentGet (VStr (u "http://a/1"));
     LogAttachmentError (VStr (u "one.txt")) (OtherError 1);
     AttachmentGet (VStr (u "http://a/2"));
     LogAttachmentStatus (VStr (u "two.txt")) 404;
     AttachmentGet (VStr (u "http://a/3"));
     LogAttachmentError (VStr (u "three.txt")) (OtherError 3)].
Proof. reflexivity. Qed.

(** The two reads of a descriptor come before the [try]: a descriptor without
    [content] raises out of [save_issue], and the attachments after it are
    not requested. *)
Example descriptor_without_content :
  save_issue failing_downloads config_50
    (VDict [(key_key, VStr (u "P-7"));
            (fields_key,
             VDict [(attachment_key,
                     VList [VDict [(filename_key, VStr (u "one.txt"))];
                            attachment "http://a/2" "two.txt"])])]) []
  = (inl (KeyError content_key),
     [Makedirs (u "data/P-7");
      WriteJson (u "data/P-7/P-7.json")
        (VDict [(key_key, VStr (u "P-7"));
                (fields_key,
                 VDict [(attachment_key,
                         VList [VDict [(filename_key, VStr (u "one.txt"))];
                                attachment "http://a/2" "two.txt"])])])]).
Proof. reflexivity. Qed.

(** ** Batch Orchestrator *)

Lemma launches_app t1 t2 : launches (t1 ++ t2) = launches t1 ++ launches t2.
Proof. unfold launches. apply flat_map_app. Qed.

Lemma page_requests_app t1 t2 : page_requests (t1 ++ t2) = page_requests t1 ++ page_requests t2.
Proof. unfold page_requests. apply flat_map_app. Qed.

Lemma catalog_fetches_app t1 t2 :
  catalog_fetches (t1 ++ t2) = (catalog_fetches t1 + catalog_fetches t2)%nat.
Proof. unfold catalog_fetches. now rewrite filter_app, length_app. Qed.

(** The events of a page unit after its catalog fetch hold no launch, no
    catalog fetch, and no page request but the unit's own. *)
Lemma page_events_projections start B t :
  Forall (page_event start B) t ->
  launches t = [] /\ catalog_fetches t = 0%nat
  /\ Forall (fun p => p = (start, B)) (page_requests t).
Proof.
  induction 1 as [|e t He _ [IH1 [IH2 IH3]]]; [now repeat split|].
  change (e :: t) with ([e] ++ t).
  rewrite launches_app, catalog_fetches_app, page_requests_app, IH1, IH2.
  destruct e; simpl in He; try contradiction; simpl; repeat split; auto.
  destruct He as [-> ->]. now constructor.
Qed.

Section Orchestrator.
Context {U : UnicodeData}.
Variable env : environment.
Variable config : Config.

(** A transform leaves the catalog as it was. *)
Lemma transform_keeps_catalog i m : fields_metadata (snd (run_transform i m)) = m.
Proof. now destruct (transform_cases i m). Qed.

Lemma extends_process_issues issues : forall meta,
  extends storage_event (process_issues env config issues meta).
Proof.
  induction issues as [|raw issues IH]; intros meta; simpl.
  - apply extends_ret.
  - destruct (run_transform raw meta) as [[e|[]] st].
    + apply extends_raise.
    + apply extends_bind; [apply extends_save_issue | intros _; apply IH].
Qed.

Lemma storage_is_page_event start B e : storage_event e -> page_event start B e.
Proof. destruct e; simpl; tauto. Qed.

(** After the catalog fetch, a page unit sends the request of its page, for
    [BATCH_SIZE] records, and stores records. *)
Lemma extends_after_catalog start (meta : value) :
  extends (page_event start (BATCH_SIZE config))
    (batch_issues <- extract_batch_issues env start (BATCH_SIZE config) ;;
     issues <- iterate batch_issues ;;
     process_issues env config issues meta).
Proof.
  apply extends_bind.
  { unfold extract_batch_issues, getBatchIssues.
    apply extends_bind.
    - apply extends_bind; [apply extends_session_get; now split|]. intros r.
      apply extends_bind; [apply extends_check_response | intros _; apply extends_response_json].
    - intros data. apply extends_bind; [apply extends_getitem|]. intros issues.
      apply extends_bind; [apply extends_len | intros _; apply extends_ret]. }
  intros batch_issues. apply extends_bind; [apply extends_iterate|]. intros issues.
  apply (extends_weaken storage_event); [apply storage_is_page_event|].
  apply extends_process_issues.
Qed.

(** A page unit: the launch line, one catalog fetch, then the events of its
    page. *)
Lemma run_batch_with_log_trace start t :
  exists t',
    snd (run_batch_with_log env config start t)
    = t ++ LogBatchStart start :: FieldCatalog :: t'
    /\ Forall (page_event start (BATCH_SIZE config)) t'.
Proof.
  unfold run_batch_with_log, bind at 1, emit.
  unfold run_batch, bind at 1, get_metadata, get_jira_fields_metadata, bind at 1, session_get.
  set (t1 := (t ++ [LogBatchStart start]) ++ [FieldCatalog]).
  assert (Et : forall t', t1 ++ t' = t ++ LogBatchStart start :: FieldCatalog :: t')
    by (intros; unfold t1; now rewrite <- !app_assoc).
  destruct (http env (t ++ [LogBatchStart start]) FieldCatalog) as [e|r].
  { exists []. rewrite <- Et, app_nil_r. now split. }
  destruct (extends_bind (page_event start (BATCH_SIZE config))
              (_check_response r ;;; response_json r)
              (fun meta => batch_issues <- extract_batch_issues env start (BATCH_SIZE config) ;;
                           issues <- iterate batch_issues ;;
                           process_issues env config issues meta)
              (extends_bind _ _ _ (extends_check_response _ r)
                 (fun _ => extends_response_json _ r))
              (extends_after_catalog start) t1) as [t' [E F]].
  exists t'. rewrite <- Et. split; [|exact F].
  rewrite <- E. unfold bind at 3. reflexivity.
Qed.

Lemma submit_all_trace starts : forall t,
  exists futures t',
    submit_all env config starts t = (inr futures, t ++ t')
    /\ launches t' = starts
    /\ catalog_fetches t' = List.length starts
    /\ Forall (fun p => snd p = BATCH_SIZE config /\ In (fst p) starts) (page_requests t').
Proof.
  induction starts as [|start starts IH]; intros t.
  - exists [], []. rewrite app_nil_r. now repeat split.
  - destruct (run_batch_with_log_trace start t) as [t1 [E1 F1]].
    destruct (page_events_projections _ _ _ F1) as [L1 [C1 P1]].
    set (t2 := t ++ LogBatchStart start :: FieldCatalog :: t1) in *.
    destruct (IH t2) as [futures [t3 [E3 [L3 [C3 P3]]]]].
    assert (Es : exists future, submit (run_batch_with_log env config start) t = (inr future, t2)).
    { unfold submit. destruct (run_batch_with_log env config start t) as [[e|[]] s];
        simpl in E1; subst s; eauto. }
    destruct Es as [future Es].
    exists (future :: futures), (LogBatchStart start :: FieldCatalog :: t1 ++ t3).
    split; [|split; [|split]].
    + cbn [submit_all]. unfold bind at 1. rewrite Es. unfold bind at 1. rewrite E3.
      unfold ret, t2. now rewrite <- app_assoc.
    + change (LogBatchStart start :: FieldCatalog :: t1 ++ t3)
        with ([LogBatchStart start; FieldCatalog] ++ t1 ++ t3).
      rewrite !launches_app, L1, L3. reflexivity.
    + change (LogBatchStart start :: FieldCatalog :: t1 ++ t3)
        with ([LogBatchStart start; FieldCatalog] ++ t1 ++ t3).
      rewrite !catalog_fetches_app, C1, C3. reflexivity.
    + change (LogBatchStart start :: FieldCatalog :: t1 ++ t3)
        with ([LogBatchStart start; FieldCatalog] ++ t1 ++ t3).
      rewrite !page_requests_app. simpl app. apply Forall_app. split.
      * revert P1. apply Forall_impl. intros p ->. simpl. auto.
      * revert P3. apply Forall_impl. intros p [H1 H2]. simpl. auto.
Qed.

Lemma results_trace futures t : snd (for_each futures result t) = t.
Proof.
  induction futures as [|[e|] futures IH]; simpl; [reflexivity | reflexivity |].
  unfold bind, result, ret. exact IH.
Qed.

Lemma count_trace project t :
  snd (countTotalIussues env config project t) = t ++ [SearchCount (JIRA_PROJECT config)].
Proof.
  unfold countTotalIussues, bind at 1, session_get.
  destruct (http env t _) as [e|r]; [reflexivity|].
  unfold bind at 1, _check_response. destruct (negb (ok r)); [reflexivity|].
  unfold ret at 1, bind at 1, response_json. destruct (json r) as [e|data]; [reflexivity|].
  unfold ret at 1, getitem. destruct data; try reflexivity.
  destruct (dict_get kv total_key); reflexivity.
Qed.

(** The run, once the count is known: the page units of the start indexes
    run, each with its own catalog fetch. *)
Lemma run_trace t n :
  fst (countTotalIussues env config (JIRA_PROJECT config) t) = inr (VInt n) ->
  BATCH_SIZE config <> 0 ->
  exists t',
    snd (run env config t) = t ++ SearchCount (JIRA_PROJECT config) :: t'
    /\ launches t' = start_indexes config (ceil_div n (BATCH_SIZE config))
    /\ catalog_fetches t' = Z.to_nat (ceil_div n (BATCH_SIZE config))
    /\ Forall (fun p => snd p = BATCH_SIZE config /\ In (fst p) (launches t'))
         (page_requests t').
Proof.
  intros Hc HB. pose proof (count_trace (JIRA_PROJECT config) t) as Ht.
  unfold run, bind at 1.
  destruct (countTotalIussues env config (JIRA_PROJECT config) t) as [r t1].
  simpl in Hc, Ht. subst r t1.
  unfold bind at 1, as_number, ret at 1. unfold bind at 1.
  destruct (Z.eqb_spec (BATCH_SIZE config) 0) as [|_]; [contradiction|].
  unfold ret at 1.
  destruct (submit_all_trace (start_indexes config (ceil_div n (BATCH_SIZE config)))
              (t ++ [SearchCount (JIRA_PROJECT config)]))
    as [futures [t' [E [L [C P]]]]].
  exists t'. unfold bind at 1. rewrite E, results_trace, <- app_assoc.
  split; [reflexivity|]. split; [exact L|]. split.
  - rewrite C. unfold start_indexes. now rewrite length_map, length_seq.
  - now rewrite L.
Qed.

End Orchestrator.

Lemma ceil_div_bounds n B : 0 < B -> (ceil_div n B - 1) * B < n <= ceil_div n B * B.
Proof.
  intros HB. unfold ceil_div.
  pose proof (Z.div_mod (- n) B ltac:(lia)) as E.
  pose proof (Z.mod_pos_bound (- n) B HB) as R.
  nia.
Qed.

(** C1, as stated, does not hold: on a project of 120 issues read by pages of
    50, the run fetches the field catalog three times, not once. *)
Lemma catalog_once_counterexample :
  catalog_fetches (snd (@run latin_unicode remote_120 config_50 [])) = 3%nat
  /\ ~ (forall (env : environment) (config : Config),
          catalog_fetches (snd (@run latin_unicode env config [])) = 1%nat).
Proof.
  assert (H : catalog_fetches (snd (@run latin_unicode remote_120 config_50 [])) = 3%nat)
    by (vm_compute; reflexivity).
  split; [exact H|]. intros Hall. rewrite (Hall remote_120 config_50) in H. discriminate.
Qed.

(** C2, as stated, does not hold in its last part: with 120 issues and pages
    of 50, the three page requests start at 0, 50 and 100 and each asks for 50
    records, the last one too; it gets the 20 that are left. *)
Lemma last_page_request_counterexample :
  page_requests (snd (@run latin_unicode remote_120 config_50 []))
  = [(0, 50); (50, 50); (100, 50)]
  /\ ~ (exists start maxResults,
          last (page_requests (snd (@run latin_unicode remote_120 config_50 []))) (0, 0)
          = (start, maxResults)
          /\ maxResults <= 20).
Proof.
  assert (H : page_requests (snd (@run latin_unicode remote_120 config_50 []))
              = [(0, 50); (50, 50); (100, 50)]) by (vm_compute; reflexivity).
  split; [exact H|]. rewrite H. simpl. intros [s [m [E Hm]]].
  injection E as <- <-. lia.
Qed.

(** C2, amended.  For a count [n] and a page size [B] (both below [2^53],
    where the float quotient has the exact ceiling), the number of pages is
    the ceiling of [n / B], the page units are launched at the start indexes
    0, [B], ..., and every page request sent is the one of a launched unit and
    asks for [B] records; with 120 and 50 the start indexes are 0, 50, 100. *)
Theorem page_units_cover_total (U : UnicodeData) (env : environment)
    (config : Config) (t : trace) (n : Z) :
  let B := BATCH_SIZE config in
  let pageCount := ceil_div n B in
  fst (countTotalIussues env config (JIRA_PROJECT config) t) = inr (VInt n) ->
  0 <= n < 2 ^ 53 ->
  0 < B < 2 ^ 53 ->
  exists t',
    snd (run env config t) = t ++ SearchCount (JIRA_PROJECT config) :: t'
    /\ (pageCount - 1) * B < n <= pageCount * B
    /\ launches t' = List.map (fun i => Z.of_nat i * B) (seq 0 (Z.to_nat pageCount))
    /\ Forall (fun p => snd p = B /\ In (fst p) (launches t')) (page_requests t')
    /\ (n = 120 -> B = 50 -> launches t' = [0; 50; 100]).
Proof.
  intros B pageCount Hc Hn HB.
  destruct (run_trace env config t n Hc ltac:(lia)) as [t' [E [L [_ P]]]].
  exists t'. split; [exact E|]. split; [apply ceil_div_bounds; lia|].
  split; [exact L|]. split; [exact P|].
  intros -> HB50. rewrite L. unfold start_indexes. fold B. rewrite HB50. reflexivity.
Qed.

Lemma page_units_cover_total_witness :
  exists t',
    snd (@run latin_unicode remote_120 config_50 [])
    = [] ++ SearchCount (JIRA_PROJECT config_50) :: t'
    /\ (ceil_div 120 (BATCH_SIZE config_50) - 1) * BATCH_SIZE config_50 < 120
       <= ceil_div 120 (BATCH_SIZE config_50) * BATCH_SIZE config_50
    /\ launches t'
       = List.map (fun i => Z.of_nat i * BATCH_SIZE config_50)
           (seq 0 (Z.to_nat (ceil_div 120 (BATCH_SIZE config_50))))
    /\ Forall (fun p => snd p = BATCH_SIZE config_50 /\ In (fst p) (launches t'))
         (page_requests t')
    /\ (120 = 120 -> BATCH_SIZE config_50 = 50 -> launches t' = [0; 50; 100]).
Proof.
  apply (page_units_cover_total latin_unicode remote_120 config_50 [] 120).
  - reflexivity.
  - lia.
  - simpl. lia.
Defined.

(** * Further properties *)

(** ** Record Transformer: what is left alone *)

Lemma filter_nothing {A} (p : A -> bool) (l : list A) :
  (forall x, In x l -> p x = false) -> filter p l = [].
Proof.
  induction l as [|x l IH]; intros H; [reflexivity|].
  simpl. rewrite (H x (or_introl eq_refl)). apply IH. intros; apply H; now right.
Qed.

Lemma token_empty_no_rename {U : UnicodeData} cat k :
  field_token cat k = [] -> renames cat k = false.
Proof. unfold renames. now intros ->. Qed.

Lemma rename_all_get_untouched {U : UnicodeData} cat names : forall f k,
  (forall n, In n names -> renames cat n = false \/ (k <> n /\ k <> field_token cat n)) ->
  dict_get (fold_left (fun f0 o => rename_in_fields cat o f0) names f) k = dict_get f k.
Proof.
  induction names as [|n names IH]; intros f k H; [reflexivity|].
  simpl. rewrite IH by (intros; apply H; now right).
  destruct (H n (or_introl eq_refl)) as [Hr | [N1 N2]].
  - unfold rename_in_fields. now rewrite Hr.
  - now apply rename_get_other.
Qed.

(** X1.  A record without dynamic field comes back as it was, whatever the
    catalog holds. *)
Theorem transform_no_dynamic_field (U : UnicodeData) (d f : dict) (cat : list value) :
  dict_get d fields_key = Some (VDict f) ->
  (forall k, In k (dict_keys f) -> startswith customfield_prefix k = false) ->
  run_transform (VDict d) (VList cat)
  = (inr tt, {| issue := VDict d; fields_metadata := VList cat |}).
Proof.
  intros Hf Hk. rewrite (transform_spec cat d f Hf). do 3 f_equal.
  unfold transformed_fields. rewrite filter_nothing by exact Hk. simpl.
  now apply dict_set_get.
Qed.

Lemma transform_no_dynamic_field_witness :
  @run_transform latin_unicode plain_issue root_cause_catalog
  = (inr tt, {| issue := plain_issue; fields_metadata := root_cause_catalog |}).
Proof.
  apply (transform_no_dynamic_field latin_unicode _ [(u "summary", VStr (u "S"))]).
  - reflexivity.
  - intros k [<-|[]]. reflexivity.
Defined.

(** X2.  When the catalog gives no usable name to any dynamic field of the record
    (no entry for the identifier, or a name that is missing, empty, no string
    or without letter or digit), the record comes back as it was. *)
Theorem transform_unnamed_fields_unchanged (U : UnicodeData) (d f : dict) (cat : list value) :
  dict_get d fields_key = Some (VDict f) ->
  (forall k, In k (dict_keys f) -> startswith customfield_prefix k = true ->
             normalized_name (VDict d) (VList cat) k = inr []) ->
  run_transform (VDict d) (VList cat)
  = (inr tt, {| issue := VDict d; fields_metadata := VList cat |}).
Proof.
  intros Hf Hk. rewrite (transform_spec cat d f Hf). do 3 f_equal.
  unfold transformed_fields. rewrite rename_all_id; [now apply dict_set_get|].
  intros n Hn. apply filter_In in Hn as [Hn Hc].
  specialize (Hk n Hn Hc). rewrite normalized_name_token in Hk.
  injection Hk as Hk. now apply token_empty_no_rename.
Qed.

Lemma transform_unnamed_fields_unchanged_witness :
  @run_transform latin_unicode
    (VDict [(fields_key, VDict [(customfield_1, VStr (u "A")); (u "summary", VStr (u "S"))])])
    root_cause_catalog
  = (inr tt,
     {| issue := VDict [(fields_key, VDict [(customfield_1, VStr (u "A")); (u "summary", VStr (u "S"))])];
        fields_metadata := root_cause_catalog |}).
Proof.
  apply (transform_unnamed_fields_unchanged latin_unicode _
           [(customfield_1, VStr (u "A")); (u "summary", VStr (u "S"))]
           [VDict [(id_key, VStr customfield_100); (name_key, VStr (u "Root Cause"))]]).
  - reflexivity.
  - intros k [<-|[<-|[]]] Hc; [reflexivity | discriminate].
Defined.

(** X3.  After the transform no dynamic field that has a non-empty normalized name
    is left among the fields: each one was moved under its name. *)
Theorem transform_removes_named_fields (U : UnicodeData) (d f : dict) (cat : list value)
    (k t : str) :
  dict_get d fields_key = Some (VDict f) ->
  NoDup (dict_keys f) ->
  startswith customfield_prefix k = true ->
  normalized_name (VDict d) (VList cat) k = inr t ->
  t <> [] ->
  exists d' f',
    run_transform (VDict d) (VList cat)
    = (inr tt, {| issue := VDict d'; fields_metadata := VList cat |})
    /\ dict_get d' fields_key = Some (VDict f')
    /\ dict_in k f' = false.
Proof.
  intros Hf Hnd Hc Ht Hne. rewrite normalized_name_token in Ht. injection Ht as Ht.
  exists (dict_set d fields_key (VDict (transformed_fields cat f))), (transformed_fields cat f).
  split; [now apply transform_spec|]. split; [apply dict_get_set_same|].
  apply dict_in_keys_false. intros Hin. unfold transformed_fields in Hin.
  destruct (rename_all_custom_left cat _ f k Hnd Hc Hin) as [H1 H2].
  assert (Hr : renames cat k = true) by (apply renames_custom; congruence).
  rewrite H2 in Hr; [discriminate|]. apply filter_In. now split.
Qed.

Lemma transform_removes_named_fields_witness :
  exists d' f',
    @run_transform latin_unicode
      (VDict [(fields_key, VDict [(customfield_1, VStr (u "A")); (customfield_2, VStr (u "B"))])])
      (VList twin_catalog)
    = (inr tt, {| issue := VDict d'; fields_metadata := VList twin_catalog |})
    /\ dict_get d' fields_key = Some (VDict f')
    /\ dict_in customfield_1 f' = false.
Proof.
  apply (transform_removes_named_fields latin_unicode
           [(fields_key, VDict [(customfield_1, VStr (u "A")); (customfield_2, VStr (u "B"))])]
           [(customfield_1, VStr (u "A")); (customfield_2, VStr (u "B"))]
           twin_catalog customfield_1 (u "root-cause")).
  - reflexivity.
  - repeat constructor; simpl; intros H; repeat destruct H as [H|H]; try discriminate; exact H.
  - reflexivity.
  - reflexivity.
  - discriminate.
Defined.

(** X4.  A key of the fields keeps its value through the transform when it is not
    the normalized name of a dynamic field of the record and is not itself a
    dynamic field that gets a name. *)
Theorem transform_keeps_untouched_value (U : UnicodeData) (d f : dict) (cat : list value)
    (k : str) :
  dict_get d fields_key = Some (VDict f) ->
  (forall c, In c (dict_keys f) -> startswith customfield_prefix c = true ->
             normalized_name (VDict d) (VList cat) c <> inr k) ->
  (startswith customfield_prefix k = true ->
   normalized_name (VDict d) (VList cat) k = inr []) ->
  exists d' f',
    run_transform (VDict d) (VList cat)
    = (inr tt, {| issue := VDict d'; fields_metadata := VList cat |})
    /\ dict_get d' fields_key = Some (VDict f')
    /\ dict_get f' k = dict_get f k.
Proof.
  intros Hf Htarget Hself.
  exists (dict_set d fields_key (VDict (transformed_fields cat f))), (transformed_fields cat f).
  split; [now apply transform_spec|]. split; [apply dict_get_set_same|].
  unfold transformed_fields. apply rename_all_get_untouched.
  intros n Hn. apply filter_In in Hn as [Hn Hc].
  destruct (list_eq_dec Z.eq_dec k n) as [->|N].
  - left. apply token_empty_no_rename. specialize (Hself Hc).
    rewrite normalized_name_token in Hself. now injection Hself.
  - right. split; [exact N|]. intros E. apply (Htarget n Hn Hc).
    rewrite normalized_name_token. now rewrite <- E.
Qed.

Lemma transform_keeps_untouched_value_witness :
  exists d' f',
    @run_transform latin_unicode
      (VDict [(fields_key, VDict [(u "summary", VStr (u "S")); (customfield_100, VStr (u "X"))])])
      root_cause_catalog
    = (inr tt, {| issue := VDict d'; fields_metadata := root_cause_catalog |})
    /\ dict_get d' fields_key = Some (VDict f')
    /\ dict_get f' (u "summary")
       = dict_get [(u "summary", VStr (u "S")); (customfield_100, VStr (u "X"))] (u "summary").
Proof.
  apply (transform_keeps_untouched_value latin_unicode
           [(fields_key, VDict [(u "summary", VStr (u "S")); (customfield_100, VStr (u "X"))])]
           [(u "summary", VStr (u "S")); (customfield_100, VStr (u "X"))]
           [VDict [(id_key, VStr customfield_100); (name_key, VStr (u "Root Cause"))]]
           (u "summary")).
  - reflexivity.
  - intros c [<-|[<-|[]]] Hc; [discriminate|]. vm_compute. discriminate.
  - discriminate.
Defined.

(** ** Record Transformer: what the renames conserve *)

Lemma dict_get_remove_same d k :
  NoDup (dict_keys d) -> dict_get (dict_remove d k) k = None.
Proof.
  intros H. destruct (dict_remove_nodup d k H) as [_ Hn].
  apply dict_in_keys_false in Hn. unfold dict_in in Hn.
  now destruct (dict_get (dict_remove d k) k).
Qed.

Lemma dict_remove_length d k :
  dict_in k d = true -> S (List.length (dict_remove d k)) = List.length d.
Proof.
  unfold dict_in. induction d as [|[k' v'] d IH]; simpl; [discriminate|].
  destruct (str_eqb k' k); [reflexivity|]. intros H. simpl. now rewrite IH.
Qed.

Lemma dict_set_length d k v :
  List.length (dict_set d k v)
  = if dict_in k d then List.length d else S (List.length d).
Proof.
  unfold dict_in. induction d as [|[k' v'] d IH]; simpl; [reflexivity|].
  destruct (str_eqb k' k); simpl; [reflexivity|]. rewrite IH.
  now destruct (dict_get d k).
Qed.

Section Conservation.
Context {U : UnicodeData}.
Variable cat : list value.

Lemma rename_value_from old_name f k v :
  NoDup (dict_keys f) ->
  dict_get (rename_in_fields cat old_name f) k = Some v ->
  exists k0, dict_get f k0 = Some v.
Proof.
  intros Hnd. unfold rename_in_fields. destruct (renames cat old_name); [|eauto].
  destruct (dict_get f old_name) as [v0|] eqn:E0; [|eauto].
  destruct (list_eq_dec Z.eq_dec k (field_token cat old_name)) as [->|N].
  - rewrite dict_get_set_same. intros [= <-]. eauto.
  - rewrite dict_get_set_other by exact N.
    destruct (list_eq_dec Z.eq_dec k old_name) as [->|N'].
    + now rewrite dict_get_remove_same.
    + rewrite dict_get_remove_other by exact N'. eauto.
Qed.

Lemma rename_length old_name f :
  (List.length (rename_in_fields cat old_name f) <= List.length f)%nat.
Proof.
  unfold rename_in_fields. destruct (renames cat old_name); [|lia].
  destruct (dict_get f old_name) eqn:E0; [|lia].
  assert (Hin : dict_in old_name f = true) by (unfold dict_in; now rewrite E0).
  pose proof (dict_remove_length f old_name Hin) as Hl.
  rewrite dict_set_length.
  destruct (dict_in (field_token cat old_name) (dict_remove f old_name)); lia.
Qed.

Lemma rename_all_conserves names : forall f,
  NoDup (dict_keys f) ->
  (forall k v,
     dict_get (fold_left (fun f0 o => rename_in_fields cat o f0) names f) k = Some v ->
     exists k0, dict_get f k0 = Some v)
  /\ (List.length (fold_left (fun f0 o => rename_in_fields cat o f0) names f)
      <= List.length f)%nat.
Proof.
  induction names as [|n names IH]; intros f Hnd; [split; [eauto | simpl; lia]|].
  destruct (IH _ (rename_nodup cat n f Hnd)) as [IH1 IH2]. simpl. split.
  - intros k v H. destruct (IH1 k v H) as [k1 H1]. now apply (rename_value_from n f k1 v).
  - pose proof (rename_length n f). lia.
Qed.

End Conservation.

(** X5.  The transform invents nothing: every value found among the fields
    afterwards was the value of some field before, and the fields are not
    more numerous than before (fewer when two of them meet under one name). *)
Theorem transform_conserves_values (U : UnicodeData) (d f : dict) (cat : list value) :
  dict_get d fields_key = Some (VDict f) ->
  NoDup (dict_keys f) ->
  exists d' f',
    run_transform (VDict d) (VList cat)
    = (inr tt, {| issue := VDict d'; fields_metadata := VList cat |})
    /\ dict_get d' fields_key = Some (VDict f')
    /\ NoDup (dict_keys f')
    /\ (forall k v, dict_get f' k = Some v -> exists k0, dict_get f k0 = Some v)
    /\ (List.length f' <= List.length f)%nat.
Proof.
  intros Hf Hnd.
  exists (dict_set d fields_key (VDict (transformed_fields cat f))), (transformed_fields cat f).
  split; [now apply transform_spec|]. split; [apply dict_get_set_same|].
  unfold transformed_fields. split; [now apply rename_all_nodup|].
  now apply rename_all_conserves.
Qed.

Lemma transform_conserves_values_witness :
  exists d' f',
    @run_transform latin_unicode
      (VDict [(fields_key, VDict [(customfield_1, VStr (u "A")); (customfield_2, VStr (u "B"))])])
      (VList twin_catalog)
    = (inr tt, {| issue := VDict d'; fields_metadata := VList twin_catalog |})
    /\ dict_get d' fields_key = Some (VDict f')
    /\ NoDup (dict_keys f')
    /\ (forall k v, dict_get f' k = Some v ->
          exists k0, dict_get [(customfield_1, VStr (u "A")); (customfield_2, VStr (u "B"))] k0
                     = Some v)
    /\ (List.length f' <= 2)%nat.
Proof.
  apply (transform_conserves_values latin_unicode
           [(fields_key, VDict [(customfield_1, VStr (u "A")); (customfield_2, VStr (u "B"))])]
           [(customfield_1, VStr (u "A")); (customfield_2, VStr (u "B"))] twin_catalog).
  - reflexivity.
  - repeat constructor; simpl; intros H; repeat destruct H as [H|H]; try discriminate; exact H.
Defined.

(** ** Catalog lookup *)

Lemma find_field_name_skip pre : forall rest field_id,
  (forall e, In (VDict e) pre -> dict_get e id_key <> Some (VStr field_id)) ->
  find_field_name (pre ++ rest) field_id = find_field_name rest field_id.
Proof.
  induction pre as [|x pre IH]; intros rest field_id H; [reflexivity|].
  assert (IH' : find_field_name (pre ++ rest) field_id = find_field_name rest field_id)
    by (apply IH; intros e He; apply H; now right).
  destruct x as [| | | | |e]; simpl; try exact IH'.
  specialize (H e (or_introl eq_refl)).
  destruct (dict_get e id_key) as [[| | |i| |]|]; try exact IH'.
  destruct (str_eqb i field_id) eqn:E; [|exact IH'].
  apply str_eqb_eq in E. subst i. congruence.
Qed.

(** X6.  The lookup of an identifier in the catalog stops at the first entry that
    is a dictionary with this [id]: it returns the [name] of that entry
    ([None] when the entry has none), whatever later entries with the same
    [id] say, and it changes nothing. *)
Theorem catalog_first_match_wins (st : store) (pre post : list value) (e : dict)
    (field_id : str) :
  fields_metadata st = VList (pre ++ VDict e :: post) ->
  dict_get e id_key = Some (VStr field_id) ->
  (forall e', In (VDict e') pre -> dict_get e' id_key <> Some (VStr field_id)) ->
  get_correspond_name_by_field_id (VStr field_id) st
  = (inr (dict_get_or_none e name_key), st).
Proof.
  intros Hm He Hpre. unfold get_correspond_name_by_field_id, bind, get. rewrite Hm.
  rewrite (find_field_name_skip pre _ field_id Hpre). simpl.
  rewrite He, str_eqb_refl. reflexivity.
Qed.

Lemma catalog_first_match_wins_witness :
  get_correspond_name_by_field_id (VStr customfield_1)
    {| issue := VNone;
       fields_metadata :=
         VList ([VStr (u "noise"); VDict [(id_key, VStr customfield_2); (name_key, VStr (u "Two"))]]
                ++ VDict [(id_key, VStr customfield_1); (name_key, VStr (u "First"))]
                :: [VDict [(id_key, VStr customfield_1); (name_key, VStr (u "Second"))]]) |}
  = (inr (dict_get_or_none [(id_key, VStr customfield_1); (name_key, VStr (u "First"))] name_key),
     {| issue := VNone;
        fields_metadata :=
          VList ([VStr (u "noise"); VDict [(id_key, VStr customfield_2); (name_key, VStr (u "Two"))]]
                 ++ VDict [(id_key, VStr customfield_1); (name_key, VStr (u "First"))]
                 :: [VDict [(id_key, VStr customfield_1); (name_key, VStr (u "Second"))]]) |}).
Proof.
  apply (catalog_first_match_wins _
           [VStr (u "noise"); VDict [(id_key, VStr customfield_2); (name_key, VStr (u "Two"))]]
           [VDict [(id_key, VStr customfield_1); (name_key, VStr (u "Second"))]]).
  - reflexivity.
  - reflexivity.
  - intros e' [H|[H|[]]]; [discriminate|]. injection H as <-. vm_compute. discriminate.
Defined.

Lemma find_field_name_none fields field_id :
  (forall e, In (VDict e) fields -> dict_get e id_key <> Some (VStr field_id)) ->
  find_field_name fields field_id = None.
Proof.
  intros H. rewrite <- (app_nil_r fields). now rewrite find_field_name_skip.
Qed.

(** X7.  The lookup raises only on the type of its arguments, the catalog being
    tested first; it never changes the record or the catalog; and an
    identifier that no entry carries gives [None], hence the empty normalized
    name, without exception. *)
Theorem catalog_lookup_errors (U : UnicodeData) (st : store) (field_name : value) :
  let r := get_correspond_name_by_field_id field_name st in
  snd r = st
  /\ (fst r = inl (ValueError MsgFieldsListNotList)
      <-> isinstance_list (fields_metadata st) = false)
  /\ (fst r = inl (ValueError MsgFieldIdNotStr)
      <-> isinstance_list (fields_metadata st) = true /\ isinstance_str field_name = false)
  /\ (forall fields field_id,
        fields_metadata st = VList fields -> field_name = VStr field_id ->
        (forall e, In (VDict e) fields -> dict_get e id_key <> Some (VStr field_id)) ->
        fst r = inr VNone
        /\ get_normalized_field_name field_name st = (inr [], st)).
Proof.
  unfold get_normalized_field_name, get_correspond_name_by_field_id, bind, get, raise, ret.
  destruct (fields_metadata st) as [| | | |fields|] eqn:Em; simpl;
    try (repeat split; intros; try discriminate; try congruence; try tauto;
         intuition congruence).
  destruct field_name as [| | |field_id| |]; simpl;
    try (repeat split; intros; try discriminate; try congruence; try tauto;
         intuition congruence).
  destruct (find_field_name fields field_id) as [name|] eqn:Ef; simpl;
    repeat split; intros; try discriminate; try congruence; try tauto;
    try (intuition congruence).
  all: match goal with
       | Hm : VList _ = VList _, Hn : VStr _ = VStr _,
         Hall : forall e, In (VDict e) _ -> _ |- _ =>
           injection Hm as <-; injection Hn as <-;
           rewrite find_field_name_none in Ef by exact Hall; discriminate
       end.
Qed.

(** ** Renaming one field *)

(** X8.  [rename_customfield] on a record with a [fields] mapping.  A field that
    is absent leaves everything as it was, without exception.  A field that is
    present is moved: the new name holds its value, the old name is gone, no
    other field changes, and the number of fields is the same, or one less
    when the new name was already there. *)
Theorem rename_customfield_moves (d f : dict) (m : value) (old_name new_name : str) :
  dict_get d fields_key = Some (VDict f) ->
  NoDup (dict_keys f) ->
  new_name <> old_name ->
  let st := {| issue := VDict d; fields_metadata := m |} in
  match dict_get f old_name with
  | None => rename_customfield old_name new_name st = (inr tt, st)
  | Some v =>
      exists f',
        rename_customfield old_name new_name st
        = (inr tt, {| issue := VDict (dict_set d fields_key (VDict f'));
                      fields_metadata := m |})
        /\ dict_get f' new_name = Some v
        /\ dict_get f' old_name = None
        /\ (forall k, k <> old_name -> k <> new_name -> dict_get f' k = dict_get f k)
        /\ List.length f'
           = (if dict_in new_name f then List.length f - 1 else List.length f)%nat
  end.
Proof.
  intros Hf Hnd Hne st. subst st.
  unfold rename_customfield, bind, get, ret, put. simpl. rewrite Hf.
  destruct (dict_get f old_name) as [v|] eqn:Eo; [|reflexivity].
  exists (dict_set (dict_remove f old_name) new_name v).
  split; [reflexivity|]. split; [apply dict_get_set_same|]. split; [|split].
  - rewrite dict_get_set_other by congruence. now apply dict_get_remove_same.
  - intros k N1 N2. now rewrite dict_get_set_other, dict_get_remove_other.
  - assert (Hin : dict_in old_name f = true) by (unfold dict_in; now rewrite Eo).
    pose proof (dict_remove_length f old_name Hin) as Hl.
    rewrite dict_set_length.
    assert (Hsame : dict_in new_name (dict_remove f old_name) = dict_in new_name f)
      by (unfold dict_in; now rewrite dict_get_remove_other).
    rewrite Hsame. destruct (dict_in new_name f); lia.
Qed.

Lemma rename_customfield_moves_witness :
  exists f',
    rename_customfield customfield_1 (u "summary")
      {| issue := VDict [(fields_key, VDict [(u "summary", VStr (u "S")); (customfield_1, VStr (u "A"))])];
         fields_metadata := VNone |}
    = (inr tt,
       {| issue := VDict (dict_set
                     [(fields_key, VDict [(u "summary", VStr (u "S")); (customfield_1, VStr (u "A"))])]
                     fields_key (VDict f'));
          fields_metadata := VNone |})
    /\ dict_get f' (u "summary") = Some (VStr (u "A"))
    /\ dict_get f' customfield_1 = None
    /\ (forall k, k <> customfield_1 -> k <> u "summary" ->
          dict_get f' k = dict_get [(u "summary", VStr (u "S")); (customfield_1, VStr (u "A"))] k)
    /\ List.length f' = 1%nat.
Proof.
  apply (rename_customfield_moves
           [(fields_key, VDict [(u "summary", VStr (u "S")); (customfield_1, VStr (u "A"))])]
           [(u "summary", VStr (u "S")); (customfield_1, VStr (u "A"))]
           VNone customfield_1 (u "summary")).
  - reflexivity.
  - repeat constructor; simpl; intros H; repeat destruct H as [H|H]; try discriminate; exact H.
  - discriminate.
Defined.

(** ** Field Normalizer: the shape of a name *)

Lemma rstrip_last p s d : rstrip p s = s -> s <> [] -> p (last s d) = false.
Proof.
  induction s as [|c s IH]; intros H Hne; [congruence|].
  simpl in H. destruct (rstrip p s) as [|x r] eqn:Er.
  - destruct (p c) eqn:Ec; [discriminate|]. injection H as <-. exact Ec.
  - injection H as H. subst s.
    change (last (c :: x :: r) d) with (last (x :: r) d).
    apply IH; [reflexivity | discriminate].
Qed.

(** X9.  A normalized name has no hyphen at its start or at its end and no two
    hyphens in a row: hyphens only separate runs of letters and digits. *)
Theorem normalized_name_shape (U : UnicodeData) (v : value) :
  let t := normalize_field_name v in
  starts_with_hyphen t = false
  /\ (t <> [] -> is_hyphen (last t 0) = false)
  /\ no_hyphen_pair t = true.
Proof.
  intros t. pose proof (normalize_shape v) as H. fold t in H.
  unfold is_normalized_token in H.
  apply andb_true_iff in H as [H Hr]. apply andb_true_iff in H as [H Hs].
  apply andb_true_iff in H as [_ Hp].
  apply str_eqb_eq in Hr. apply negb_true_iff in Hs.
  split; [exact Hs|]. split; [|exact Hp].
  intros Hne. now apply rstrip_last.
Qed.

(** ** Field Normalizer: when the name is empty *)

Lemma alnum_not_space c : is_alnum c = true -> is_space c = false.
Proof. unfold is_alnum. char_class. Qed.

Lemma alnum_not_hyphen c : is_alnum c = true -> is_hyphen c = false.
Proof. unfold is_alnum. char_class. Qed.

Lemma alnum_word c : is_alnum c = true -> is_word c = true.
Proof. unfold is_alnum. char_class. Qed.

Lemma word_alnum_or_hyphen c : is_word c = true -> is_alnum c = true \/ is_hyphen c = true.
Proof.
  unfold is_word, is_alnum. rewrite !orb_true_iff. tauto.
Qed.

Lemma lower_char_alnum c : is_alnum (lower_char c) = is_alnum c.
Proof.
  unfold lower_char. destruct (is_upper c) eqn:E; [|reflexivity].
  assert (Ha : is_alnum c = true) by (unfold is_alnum; now rewrite E, orb_true_r).
  rewrite Ha. revert E. unfold is_alnum. char_class.
Qed.

Lemma sub_runs_alnum p s : forall b,
  (forall c, p c = true -> is_alnum c = false) ->
  existsb is_alnum (sub_runs p b s) = existsb is_alnum s.
Proof.
  intros b Hp. revert b. induction s as [|c s IH]; intros b; [reflexivity|].
  simpl. destruct (p c) eqn:Ec.
  - rewrite (Hp c Ec). destruct b; simpl; now rewrite IH.
  - simpl. now rewrite IH.
Qed.

Lemma sub_non_word_alnum s : existsb is_alnum (sub_non_word s) = existsb is_alnum s.
Proof.
  induction s as [|c s IH]; [reflexivity|]. simpl. rewrite IH. f_equal.
  destruct (is_word c) eqn:Ew; [reflexivity|].
  destruct (is_alnum c) eqn:Ea; [|reflexivity].
  now rewrite (alnum_word c Ea) in Ew.
Qed.

Lemma lstrip_alnum s : existsb is_alnum (lstrip is_hyphen s) = existsb is_alnum s.
Proof.
  induction s as [|c s IH]; [reflexivity|]. simpl.
  destruct (is_hyphen c) eqn:Eh; [|reflexivity].
  rewrite IH. destruct (is_alnum c) eqn:Ea; [|reflexivity].
  now rewrite (alnum_not_hyphen c Ea) in Eh.
Qed.

Lemma rstrip_alnum s : existsb is_alnum (rstrip is_hyphen s) = existsb is_alnum s.
Proof.
  induction s as [|c s IH]; [reflexivity|]. simpl.
  destruct (rstrip is_hyphen s) as [|x r] eqn:Er.
  - simpl in IH. rewrite <- IH, orb_false_r.
    destruct (is_hyphen c) eqn:Eh; simpl; [|now rewrite orb_false_r].
    destruct (is_alnum c) eqn:Ea; [|reflexivity].
    now rewrite (alnum_not_hyphen c Ea) in Eh.
  - change (existsb is_alnum (c :: x :: r)) with (is_alnum c || existsb is_alnum (x :: r)).
    now rewrite IH.
Qed.

Lemma lower_alnum s : existsb is_alnum (lower s) = existsb is_alnum s.
Proof.
  induction s as [|c s IH]; [reflexivity|]. simpl. now rewrite lower_char_alnum, IH.
Qed.

Lemma token_char_alnum_or_hyphen c :
  is_token_char c = true -> is_alnum c = true \/ is_hyphen c = true.
Proof. intros H. apply word_alnum_or_hyphen. now apply token_char_word. Qed.

(** X10.  The normalized name of a non-empty string is empty exactly when no ASCII
    letter or digit is left once the accents are taken away: then the field
    is not renamed. *)
Theorem normalize_empty_iff_no_alnum (U : UnicodeData) (s : str) :
  s <> [] ->
  normalize_field_name (VStr s) = [] <-> existsb is_alnum (without_accents s) = false.
Proof.
  intros Hs.
  assert (Hex : existsb is_alnum (normalize_field_name (VStr s))
                = existsb is_alnum (without_accents s)).
  { rewrite normalize_nonempty by exact Hs.
    unfold strip_hyphens, sub_hyphens, sub_spaces, without_accents.
    rewrite lower_alnum, rstrip_alnum, lstrip_alnum.
    rewrite sub_runs_alnum
      by (intros c Hc; destruct (is_alnum c) eqn:Ea; [|reflexivity];
          now rewrite (alnum_not_hyphen c Ea) in Hc).
    rewrite sub_non_word_alnum.
    now rewrite sub_runs_alnum
      by (intros c Hc; destruct (is_alnum c) eqn:Ea; [|reflexivity];
          now rewrite (alnum_not_space c Ea) in Hc). }
  rewrite <- Hex. split; [now intros ->|].
  intros Hno. pose proof (normalize_shape (VStr s)) as Hshape.
  destruct (normalize_field_name (VStr s)) as [|c t]; [reflexivity|]. exfalso.
  unfold is_normalized_token in Hshape. simpl in Hshape, Hno.
  apply andb_true_iff in Hshape as [Hshape _]. apply andb_true_iff in Hshape as [Hshape Hst].
  apply andb_true_iff in Hshape as [Hc _]. apply andb_true_iff in Hc as [Hc _].
  apply negb_true_iff in Hst. apply orb_false_iff in Hno as [Hno _].
  destruct (token_char_alnum_or_hyphen c Hc); congruence.
Qed.

Lemma normalize_empty_iff_no_alnum_witness :
  @normalize_field_name latin_unicode (VStr (u "-- (?) --")) = []
  <-> existsb is_alnum (@without_accents latin_unicode (u "-- (?) --")) = false.
Proof.
  apply (normalize_empty_iff_no_alnum latin_unicode (u "-- (?) --")). discriminate.
Defined.

(** ** JiraClient: one request per call *)

Lemma bind_inr {S A B} (m : M S A) (k : A -> M S B) s b s' :
  bind m k s = (inr b, s') ->
  exists a s1, m s = (inr a, s1) /\ k a s1 = (inr b, s').
Proof.
  unfold bind. destruct (m s) as [[e|a] s1]; [discriminate|]. eauto.
Qed.

Lemma bind_inl {S A B} (m : M S A) (k : A -> M S B) s e s1 :
  m s = (inl e, s1) -> bind m k s = (inl e, s1).
Proof. unfold bind. now intros ->. Qed.

Section ApiCalls.
Variable env : environment.
Variable config : Config.

(** The part of an API call after the request adds nothing to the trace. *)
Lemma checked_json_trace r t : snd ((_check_response r ;;; response_json r) t) = t.
Proof.
  unfold bind, _check_response, response_json.
  destruct (negb (ok r)); [reflexivity|]. simpl. destruct (json r); reflexivity.
Qed.

Lemma checked_json_error r t :
  ok r = false ->
  (_check_response r ;;; response_json r) t = (inl (JiraApiError (status_code r)), t).
Proof. intros H. unfold bind, _check_response. now rewrite H. Qed.

Lemma fields_metadata_trace t :
  snd (get_jira_fields_metadata env t) = t ++ [FieldCatalog].
Proof.
  unfold get_jira_fields_metadata, bind at 1, session_get.
  destruct (http env t FieldCatalog) as [e|r]; [reflexivity|]. apply checked_json_trace.
Qed.

Lemma batch_issues_trace start maxResults t :
  snd (getBatchIssues env start maxResults t) = t ++ [SearchPage start maxResults].
Proof.
  unfold getBatchIssues, bind at 1, session_get.
  destruct (http env t _) as [e|r]; [reflexivity|]. apply checked_json_trace.
Qed.

Lemma extract_trace start batch_size t :
  snd (extract_batch_issues env start batch_size t) = t ++ [SearchPage start batch_size].
Proof.
  pose proof (batch_issues_trace start batch_size t) as H.
  unfold extract_batch_issues, bind at 1.
  destruct (getBatchIssues env start batch_size t) as [[e|data] t1]; simpl in H; subst t1;
    [reflexivity|].
  unfold bind at 1, getitem. destruct data; try reflexivity.
  destruct (dict_get kv issues_key) as [issues|]; [|reflexivity].
  unfold ret at 1, bind, len. destruct issues; reflexivity.
Qed.

End ApiCalls.

(** X12.  Each call of the client sends one request and does nothing else to the
    outside, whatever the answer; an answer with a status from 400 to 599
    makes the call raise with that status, the body being left unread. *)
Theorem api_call_one_request (env : environment) (config : Config) (t : trace)
    (project : str) (start maxResults : Z) :
  snd (countTotalIussues env config project t) = t ++ [SearchCount (JIRA_PROJECT config)]
  /\ snd (getBatchIssues env start maxResults t) = t ++ [SearchPage start maxResults]
  /\ snd (get_jira_fields_metadata env t) = t ++ [FieldCatalog]
  /\ snd (getNbTotalIssuer env config t) = t ++ [SearchCount (JIRA_PROJECT config)]
  /\ (forall r, http env t (SearchCount (JIRA_PROJECT config)) = inr r -> ok r = false ->
        fst (countTotalIussues env config project t) = inl (JiraApiError (status_code r)))
  /\ (forall r, http env t (SearchPage start maxResults) = inr r -> ok r = false ->
        fst (getBatchIssues env start maxResults t) = inl (JiraApiError (status_code r)))
  /\ (forall r, http env t FieldCatalog = inr r -> ok r = false ->
        fst (get_jira_fields_metadata env t) = inl (JiraApiError (status_code r))).
Proof.
  split; [apply count_trace|]. split; [apply batch_issues_trace|].
  split; [apply fields_metadata_trace|]. split; [|split; [|split]].
  - pose proof (count_trace env config (JIRA_PROJECT config) t) as H.
    unfold getNbTotalIssuer, bind.
    destruct (countTotalIussues env config (JIRA_PROJECT config) t) as [[e|v] t1]; exact H.
  - intros r Hr Hok. unfold countTotalIussues, bind at 1, session_get. rewrite Hr.
    unfold bind at 1, _check_response. now rewrite Hok.
  - intros r Hr Hok. unfold getBatchIssues, bind at 1, session_get. rewrite Hr.
    now rewrite checked_json_error.
  - intros r Hr Hok. unfold get_jira_fields_metadata, bind at 1, session_get. rewrite Hr.
    now rewrite checked_json_error.
Qed.

(** ** Batch Orchestrator: runs without page unit *)

(** X13.  When the count request fails (exception, error status, unreadable body,
    no [total]), the run raises that exception and does nothing more: no
    catalog fetch, no page request. *)
Theorem run_count_failure (U : UnicodeData) (env : environment) (config : Config)
    (t : trace) (e : exn) :
  fst (countTotalIussues env config (JIRA_PROJECT config) t) = inl e ->
  run env config t = (inl e, t ++ [SearchCount (JIRA_PROJECT config)]).
Proof.
  intros H. pose proof (count_trace env config (JIRA_PROJECT config) t) as Ht.
  unfold run. apply bind_inl.
  destruct (countTotalIussues env config (JIRA_PROJECT config) t) as [r t1].
  simpl in H, Ht. now subst.
Qed.

Lemma run_count_failure_witness :
  @run latin_unicode remote_500 config_50 []
  = (inl (JiraApiError 500), [] ++ [SearchCount (JIRA_PROJECT config_50)]).
Proof.
  apply (run_count_failure latin_unicode remote_500 config_50 [] (JiraApiError 500)).
  reflexivity.
Defined.

(** X14.  With a batch size of 0 the run raises [ZeroDivisionError] once the count
    is known, and launches no page unit. *)
Theorem run_zero_batch_size (U : UnicodeData) (env : environment) (config : Config)
    (t : trace) (n : Z) :
  fst (countTotalIussues env config (JIRA_PROJECT config) t) = inr (VInt n) ->
  BATCH_SIZE config = 0 ->
  run env config t = (inl ZeroDivisionError, t ++ [SearchCount (JIRA_PROJECT config)]).
Proof.
  intros H HB. pose proof (count_trace env config (JIRA_PROJECT config) t) as Ht.
  unfold run, bind at 1.
  destruct (countTotalIussues env config (JIRA_PROJECT config) t) as [r t1].
  simpl in H, Ht. subst r t1.
  unfold bind at 1, as_number, ret at 1. unfold bind at 1. now rewrite HB.
Qed.

Lemma run_zero_batch_size_witness :
  @run latin_unicode remote_120 config_0 []
  = (inl ZeroDivisionError, [] ++ [SearchCount (JIRA_PROJECT config_0)]).
Proof.
  apply (run_zero_batch_size latin_unicode remote_120 config_0 [] 120); reflexivity.
Defined.

(** ** Batch Orchestrator: the pages *)

Lemma ceil_div_nonpos n B : 0 < B -> n <= 0 -> ceil_div n B <= 0.
Proof.
  intros HB Hn. pose proof (ceil_div_bounds n B HB). nia.
Qed.

(** X15.  The start indexes cut the records into pages without gap or overlap:
    each record index below the count lies in the page of exactly one start
    index; a count of 0 gives no page at all.  (Count and page size below
    [2^53], where [ceil_div] is the ceiling Python computes.) *)
Theorem pages_partition_records (config : Config) (n : Z) :
  let B := BATCH_SIZE config in
  let starts := start_indexes config (ceil_div n B) in
  0 < B < 2 ^ 53 ->
  n < 2 ^ 53 ->
  (n <= 0 -> starts = [])
  /\ (forall k, 0 <= k < n ->
        exists s, In s starts /\ s <= k < s + B
                  /\ (forall s', In s' starts -> s' <= k < s' + B -> s' = s)).
Proof.
  intros B starts [HB _] _. subst starts. unfold start_indexes. fold B. split.
  - intros Hn. pose proof (ceil_div_nonpos n B HB Hn).
    replace (Z.to_nat (ceil_div n B)) with 0%nat by lia. reflexivity.
  - intros k Hk. pose proof (ceil_div_bounds n B HB) as Hc.
    pose proof (Z.div_mod k B ltac:(lia)) as Ek.
    pose proof (Z.mod_pos_bound k B HB) as Rk.
    assert (Hq : 0 <= k / B) by (apply Z.div_pos; lia).
    exists (Z.of_nat (Z.to_nat (k / B)) * B). split; [|split].
    + apply in_map_iff. exists (Z.to_nat (k / B)). split; [reflexivity|].
      apply in_seq. split; [lia|]. simpl.
      assert (k / B < ceil_div n B) by nia. lia.
    + rewrite Z2Nat.id by lia. nia.
    + intros s' Hs' Hin. apply in_map_iff in Hs' as [i [<- _]].
      rewrite Z2Nat.id by lia. f_equal. nia.
Qed.

Lemma pages_partition_records_witness :
  (120 <= 0 -> start_indexes config_50 (ceil_div 120 (BATCH_SIZE config_50)) = [])
  /\ (forall k, 0 <= k < 120 ->
        exists s, In s (start_indexes config_50 (ceil_div 120 (BATCH_SIZE config_50)))
                  /\ s <= k < s + BATCH_SIZE config_50
                  /\ (forall s', In s' (start_indexes config_50 (ceil_div 120 (BATCH_SIZE config_50))) ->
                                 s' <= k < s' + BATCH_SIZE config_50 -> s' = s)).
Proof.
  apply (pages_partition_records config_50 120); simpl; lia.
Defined.

(** ** Page units *)

Section PageUnits.
Context {U : UnicodeData}.
Variable env : environment.
Variable config : Config.

Lemma process_issues_trace issues meta t r t' :
  process_issues env config issues meta t = (r, t') ->
  exists t'', t' = t ++ t'' /\ Forall storage_event t''.
Proof.
  intros H. destruct (extends_process_issues env config issues meta t) as [t'' [E F]].
  rewrite H in E. simpl in E. eauto.
Qed.

(** A page unit that ends without exception has made its catalog fetch, then
    the request of its page, then only stored records. *)
Lemma unit_success_trace start t t' :
  run_batch_with_log env config start t = (inr tt, t') ->
  exists t'',
    t' = t ++ LogBatchStart start :: FieldCatalog
           :: SearchPage start (BATCH_SIZE config) :: t''
    /\ Forall storage_event t''.
Proof.
  unfold run_batch_with_log. intros H.
  apply bind_inr in H as [[] [t1 [H1 H]]]. unfold emit in H1. injection H1 as <-.
  unfold run_batch in H.
  apply bind_inr in H as [meta [t2 [H2 H]]].
  pose proof (fields_metadata_trace env (t ++ [LogBatchStart start])) as E2.
  unfold get_metadata in H2. rewrite H2 in E2. simpl in E2. subst t2.
  apply bind_inr in H as [batch [t3 [H3 H]]].
  pose proof (extract_trace env start (BATCH_SIZE config)
                ((t ++ [LogBatchStart start]) ++ [FieldCatalog])) as E3.
  rewrite H3 in E3. simpl in E3. subst t3.
  apply bind_inr in H as [issues [t4 [H4 H]]].
  assert (E4 : t4 = ((t ++ [LogBatchStart start]) ++ [FieldCatalog])
                    ++ [SearchPage start (BATCH_SIZE config)]).
  { unfold iterate in H4. destruct batch; try discriminate; now injection H4. }
  subst t4. apply process_issues_trace in H as [t'' [-> F]].
  exists t''. rewrite <- !app_assoc. now split.
Qed.

(** The same catalog value reaches every record of the page: the loop over a
    list in two parts is the loop over the first, then over the second. *)
Lemma process_issues_app pre : forall rest meta t t1,
  process_issues env config pre meta t = (inr tt, t1) ->
  process_issues env config (pre ++ rest) meta t = process_issues env config rest meta t1.
Proof.
  induction pre as [|raw pre IH]; intros rest meta t t1 H.
  - simpl in H. unfold ret in H. now injection H as <-.
  - simpl in H |- *. pose proof (transform_keeps_catalog raw meta) as Hk.
    destruct (run_transform raw meta) as [[e|[]] st]; [discriminate|].
    simpl in Hk. rewrite Hk in *.
    apply bind_inr in H as [[] [t2 [H2 H]]].
    unfold bind at 1. rewrite H2. now apply IH.
Qed.

Lemma submit_all_success starts : forall t futures t',
  submit_all env config starts t = (inr futures, t') ->
  Forall (fun future => future = None) futures ->
  exists t'',
    t' = t ++ t''
    /\ page_requests t'' = List.map (fun s => (s, BATCH_SIZE config)) starts
    /\ List.length futures = List.length starts.
Proof.
  induction starts as [|start starts IH]; intros t futures t' H Hall.
  - simpl in H. unfold ret in H. injection H as <- <-.
    exists []. rewrite app_nil_r. now split.
  - cbn [submit_all] in H.
    apply bind_inr in H as [future [t1 [H1 H]]].
    apply bind_inr in H as [rest [t2 [H2 H]]].
    unfold ret in H. injection H as <- <-.
    inversion Hall as [|? ? Hf Hr]; subst.
    unfold submit in H1.
    destruct (run_batch_with_log env config start t) as [[e|[]] s] eqn:Eu;
      [discriminate|]. injection H1 as <-.
    destruct (unit_success_trace start t s Eu) as [t3 [-> F3]].
    destruct (IH _ _ _ H2 Hr) as [t4 [-> [P4 L4]]].
    exists ((LogBatchStart start :: FieldCatalog
             :: SearchPage start (BATCH_SIZE config) :: t3) ++ t4).
    split; [now rewrite app_assoc|]. split; [|simpl; now rewrite L4].
    rewrite page_requests_app, P4.
    change (LogBatchStart start :: FieldCatalog :: SearchPage start (BATCH_SIZE config) :: t3)
      with ([LogBatchStart start; FieldCatalog; SearchPage start (BATCH_SIZE config)] ++ t3).
    rewrite page_requests_app.
    assert (P3 : page_requests t3 = []).
    { clear -F3. induction F3 as [|e l He _ IHl]; [reflexivity|].
      change (e :: l) with ([e] ++ l). rewrite page_requests_app, IHl.
      destruct e; simpl in He; try contradiction; reflexivity. }
    rewrite P3. reflexivity.
Qed.

Lemma results_all_none futures t t' :
  for_each futures result t = (inr tt, t') -> Forall (fun future => future = None) futures.
Proof.
  induction futures as [|[e|] futures IH]; intros H; [constructor | discriminate |].
  simpl in H. constructor; [reflexivity|]. now apply IH.
Qed.

End PageUnits.

(** X16.  A run that ends without exception has requested every page, once each,
    for [BATCH_SIZE] records, in the order of the start indexes. *)
Theorem run_success_requests_every_page (U : UnicodeData) (env : environment)
    (config : Config) (t : trace) (n : Z) :
  fst (countTotalIussues env config (JIRA_PROJECT config) t) = inr (VInt n) ->
  0 <= n < 2 ^ 53 ->
  0 < BATCH_SIZE config < 2 ^ 53 ->
  fst (run env config t) = inr tt ->
  exists t',
    snd (run env config t) = t ++ SearchCount (JIRA_PROJECT config) :: t'
    /\ page_requests t'
       = List.map (fun s => (s, BATCH_SIZE config))
           (start_indexes config (ceil_div n (BATCH_SIZE config))).
Proof.
  intros Hc _ _ Hr. pose proof (count_trace env config (JIRA_PROJECT config) t) as Ht.
  destruct (run env config t) as [r t'] eqn:Er. simpl in Hr. subst r.
  unfold run in Er. apply bind_inr in Er as [total [t1 [H1 Er]]].
  rewrite H1 in Hc, Ht. simpl in Hc, Ht. injection Hc as ->. subst t1.
  apply bind_inr in Er as [n' [t2 [H2 Er]]].
  unfold as_number, ret in H2. injection H2 as <- <-.
  apply bind_inr in Er as [[] [t3 [H3 Er]]].
  destruct (BATCH_SIZE config =? 0); [discriminate|].
  unfold ret in H3. injection H3 as <-.
  apply bind_inr in Er as [futures [t4 [H4 Er]]].
  pose proof (results_all_none _ _ _ Er) as Hall.
  pose proof (results_trace futures t4) as Hs. rewrite Er in Hs. simpl in Hs. subst t4.
  destruct (submit_all_success env config _ _ _ _ H4 Hall) as [t'' [-> [P _]]].
  exists t''. simpl. rewrite <- app_assoc. now split.
Qed.

Lemma run_success_requests_every_page_witness :
  exists t',
    snd (@run latin_unicode remote_120 config_50 [])
    = [] ++ SearchCount (JIRA_PROJECT config_50) :: t'
    /\ page_requests t'
       = List.map (fun s => (s, BATCH_SIZE config_50))
           (start_indexes config_50 (ceil_div 120 (BATCH_SIZE config_50))).
Proof.
  apply (run_success_requests_every_page latin_unicode remote_120 config_50 [] 120).
  - reflexivity.
  - lia.
  - simpl. lia.
  - vm_compute. reflexivity.
Defined.

(** X17.  A page unit whose catalog fetch fails ends there, with that exception: it
    sends no page request and stores nothing.  A page unit whose page cannot
    be read ends after the page request and stores nothing. *)
Theorem page_unit_fails_early (U : UnicodeData) (env : environment) (config : Config)
    (start : Z) (t : trace) (e : exn) :
  let t1 := t ++ [LogBatchStart start] in
  (fst (get_metadata env t1) = inl e ->
   run_batch_with_log env config start t = (inl e, t1 ++ [FieldCatalog]))
  /\ (forall meta,
        fst (get_metadata env t1) = inr meta ->
        fst (extract_batch_issues env start (BATCH_SIZE config) (t1 ++ [FieldCatalog])) = inl e ->
        run_batch_with_log env config start t
        = (inl e, (t1 ++ [FieldCatalog]) ++ [SearchPage start (BATCH_SIZE config)])).
Proof.
  intros t1. subst t1. set (t1 := t ++ [LogBatchStart start]).
  pose proof (fields_metadata_trace env t1) as E1.
  pose proof (extract_trace env start (BATCH_SIZE config) (t1 ++ [FieldCatalog])) as E2.
  assert (Eu : run_batch_with_log env config start t = run_batch env config start t1)
    by reflexivity.
  rewrite Eu. clear Eu. fold (get_metadata env) in E1. split.
  - intros H. unfold run_batch. apply bind_inl.
    destruct (get_metadata env t1) as [r1 s1]. simpl in *. now subst.
  - intros meta Hm He. unfold run_batch, bind at 1.
    destruct (get_metadata env t1) as [r1 s1]. simpl in E1, Hm. subst r1 s1.
    apply bind_inl.
    destruct (extract_batch_issues env start (BATCH_SIZE config) (t1 ++ [FieldCatalog]))
      as [r2 s2]. simpl in *. now subst.
Qed.

(** X18.  The records of a page are handled in order, and the first one the
    transform refuses ends the page unit with its exception: the records
    before it stay stored, the records after it are neither transformed nor
    stored. *)
Theorem page_unit_stops_at_refused_record (U : UnicodeData) (env : environment)
    (config : Config) (pre post : list value) (bad meta : value) (e : exn) (t t1 : trace) :
  process_issues env config pre meta t = (inr tt, t1) ->
  fst (run_transform bad meta) = inl e ->
  process_issues env config (pre ++ bad :: post) meta t = (inl e, t1).
Proof.
  intros Hpre Hbad. rewrite (process_issues_app env config pre _ meta t t1 Hpre).
  simpl. destruct (run_transform bad meta) as [[e'|[]] st]; [|discriminate].
  simpl in Hbad. now injection Hbad as ->.
Qed.

Lemma page_unit_stops_at_refused_record_witness :
  @process_issues latin_unicode remote_120 config_50
    ([plain_issue] ++ VDict [(key_key, VStr (u "P-2"))] :: [plain_issue]) (VList []) []
  = (inl (ValueError MsgIssueNoFields),
     [Makedirs (u "data/P-1"); WriteJson (u "data/P-1/P-1.json") plain_issue; LogNoAttachment]).
Proof.
  apply (page_unit_stops_at_refused_record latin_unicode remote_120 config_50
           [plain_issue] [plain_issue] (VDict [(key_key, VStr (u "P-2"))]) (VList [])
           (ValueError MsgIssueNoFields) []).
  - reflexivity.
  - reflexivity.
Defined.

Example page_unit_fails_early_catalog :
  @run_batch_with_log latin_unicode remote_500 config_50 100 []
  = (inl (JiraApiError 500), [LogBatchStart 100; FieldCatalog]).
Proof. reflexivity. Qed.

(** ** Storing a record *)

Section Storing.
Variable env : environment.
Variable config : Config.

Lemma save_issue_steps d key t :
  dict_get d key_key = Some (VStr key) ->
  let issue_dir := path_join env (ETL_OUTPUT_DIR config) key in
  let json_path := path_join env issue_dir (key ++ u ".json") in
  save_issue env config (VDict d) t
  = match makedirs_error env t issue_dir with
    | Some e => (inl e, t)
    | None =>
        match open_error env (t ++ [Makedirs issue_dir]) json_path with
        | Some e => (inl e, t ++ [Makedirs issue_dir])
        | None =>
            (fields <- dict_get_method (VDict d) fields_key (VDict []) ;;
             attachments <- dict_get_method fields attachment_key (VList []) ;;
             if truthy attachments
             then download_attachments env (VStr key) attachments issue_dir
             else emit LogNoAttachment)
              ((t ++ [Makedirs issue_dir]) ++ [WriteJson json_path (VDict d)])
        end
    end.
Proof.
  intros Hk issue_dir json_path.
  unfold save_issue, bind at 1, dict_get_method at 1. rewrite Hk. unfold ret at 1.
  unfold bind at 1, create_issue_folder, bind at 1, os_path_join, ret at 1.
  unfold bind at 1. fold issue_dir.
  destruct (makedirs_error env t issue_dir) as [e|]; [reflexivity|].
  unfold ret at 1.
  unfold bind at 1, save_json, bind at 1, json_name, os_path_join, ret at 1.
  fold json_path.
  destruct (open_error env (t ++ [Makedirs issue_dir]) json_path) as [e|]; reflexivity.
Qed.

End Storing.



(** X20.  A record whose [key] is missing or is no string is not stored: the call
    raises [TypeError] before anything is created or written. *)
Theorem save_issue_without_key (env : environment) (config : Config) (d : dict) (t : trace) :
  isinstance_str (dict_get_or_none d key_key) = false ->
  save_issue env config (VDict d) t = (inl TypeError, t).
Proof.
  intros H. unfold dict_get_or_none in H.
  unfold save_issue, bind at 1, dict_get_method.
  destruct (dict_get d key_key) as [k|]; [|reflexivity].
  destruct k; try discriminate; reflexivity.
Qed.

Lemma save_issue_without_key_witness :
  save_issue remote_120 config_50 (VDict [(fields_key, VDict [])]) [] = (inl TypeError, []).
Proof.
  apply (save_issue_without_key remote_120 config_50 [(fields_key, VDict [])] []).
  reflexivity.
Defined.

(** X21.  The order of the storage: when the folder cannot be made nothing is
    written; when the JSON document cannot be written no attachment is
    requested.  In both cases the exception leaves [save_issue]. *)
Theorem save_issue_storage_failure (env : environment) (config : Config)
    (d : dict) (key : str) (t : trace) (e : exn) :
  let issue_dir := path_join env (ETL_OUTPUT_DIR config) key in
  let json_path := path_join env issue_dir (key ++ u ".json") in
  dict_get d key_key = Some (VStr key) ->
  (makedirs_error env t issue_dir = Some e ->
   save_issue env config (VDict d) t = (inl e, t))
  /\ (makedirs_error env t issue_dir = None ->
      open_error env (t ++ [Makedirs issue_dir]) json_path = Some e ->
      save_issue env config (VDict d) t = (inl e, t ++ [Makedirs issue_dir])).
Proof.
  intros issue_dir json_path Hk.
  rewrite (save_issue_steps env config d key t Hk). fold issue_dir json_path. split.
  - now intros ->.
  - now intros -> ->.
Qed.

Lemma save_issue_storage_failure_witness :
  (makedirs_error failing_downloads [LogBatchStart 0; FieldCatalog] (u "data/P-7")
   = Some (OtherError 3) ->
   save_issue failing_downloads config_50 (VDict issue_with_attachments)
     [LogBatchStart 0; FieldCatalog]
   = (inl (OtherError 3), [LogBatchStart 0; FieldCatalog]))
  /\ (makedirs_error failing_downloads [LogBatchStart 0; FieldCatalog] (u "data/P-7") = None ->
      open_error failing_downloads ([LogBatchStart 0; FieldCatalog] ++ [Makedirs (u "data/P-7")])
        (u "data/P-7/P-7.json") = Some (OtherError 3) ->
      save_issue failing_downloads config_50 (VDict issue_with_attachments)
        [LogBatchStart 0; FieldCatalog]
      = (inl (OtherError 3), [LogBatchStart 0; FieldCatalog] ++ [Makedirs (u "data/P-7")])).
Proof.
  apply (save_issue_storage_failure failing_downloads config_50 issue_with_attachments
           (u "P-7") [LogBatchStart 0; FieldCatalog] (OtherError 3)).
  reflexivity.
Defined.

(** On [failing_downloads] the JSON document of a record stored in the course
    of a page unit cannot be written: the attachments are not requested. *)
Example json_failure_skips_attachments :
  save_issue failing_downloads config_50 (VDict issue_with_attachments)
    [LogBatchStart 0; FieldCatalog]
  = (inl (OtherError 3), [LogBatchStart 0; FieldCatalog; Makedirs (u "data/P-7")]).
Proof. reflexivity. Qed.

(** ** Downloads *)

Section Downloads.
Variable env : environment.

Lemma download_one_saved url name dir r t :
  http env t (AttachmentGet url) = inr r ->
  status_code r = 200 ->
  open_error env (t ++ [AttachmentGet url]) (path_join env dir name) = None ->
  try_except (download_one env url (VStr name) dir)
             (fun e => emit (LogAttachmentError (VStr name) e)) t
  = (inr tt, t ++ [AttachmentGet url; WriteFile (path_join env dir name) (content r);
                   LogAttachmentSaved (VStr name)]).
Proof.
  intros Hr Hs Ho. unfold try_except, download_one, bind at 1, session_get. rewrite Hr, Hs.
  simpl. unfold bind at 1, os_path_join, ret at 1. unfold bind. rewrite Ho.
  unfold emit. now rewrite <- !app_assoc.
Qed.

Lemma extends_download_one_no_write url name dir :
  (forall t u r, http env t (AttachmentGet u) = inr r -> status_code r <> 200) ->
  extends no_file_written (download_one env url name dir).
Proof.
  intros Hno t. unfold download_one, bind at 1, session_get.
  destruct (http env t (AttachmentGet url)) as [e|r] eqn:Er.
  - exists [AttachmentGet url]. split; [reflexivity | now repeat constructor].
  - destruct (Z.eqb_spec (status_code r) 200) as [E|_]; [now apply Hno in Er|].
    exists [AttachmentGet url; LogAttachmentStatus name (status_code r)].
    unfold emit. rewrite <- app_assoc. split; [reflexivity | now repeat constructor].
Qed.

End Downloads.

(** X22.  When every download is answered with status 200 and every file can be
    opened, each attachment gives, in order, its request, the writing of the
    received content under its file name in the folder of the record, and
    one log line. *)
Theorem download_attachments_all_saved (env : environment) (serve : value -> response)
    (key : value) (dir : str) (files : list (value * str)) (t : trace) :
  (forall t' a, http env t' (AttachmentGet a) = inr (serve a)) ->
  (forall a, status_code (serve a) = 200) ->
  (forall t' p, open_error env t' p = None) ->
  download_attachments env key
    (VList (List.map (fun '(a, n) => VDict [(content_key, a); (filename_key, VStr n)]) files))
    dir t
  = (inr tt,
     t ++ flat_map (fun '(a, n) =>
                      [AttachmentGet a; WriteFile (path_join env dir n) (content (serve a));
                       LogAttachmentSaved (VStr n)]) files).
Proof.
  intros Hh Hs Ho. unfold download_attachments, iterate, bind at 1, ret.
  revert t. induction files as [|[a n] files IH]; intros t.
  - simpl. now rewrite app_nil_r.
  - cbn [List.map for_each flat_map]. unfold bind at 1.
    assert (Hbody :
      (file_url <- getitem (VDict [(content_key, a); (filename_key, VStr n)]) content_key ;;
       file_name <- getitem (VDict [(content_key, a); (filename_key, VStr n)]) filename_key ;;
       try_except (download_one env file_url file_name dir)
                  (fun e => emit (LogAttachmentError file_name e))) t
      = (inr tt, t ++ [AttachmentGet a; WriteFile (path_join env dir n) (content (serve a));
                       LogAttachmentSaved (VStr n)])).
    { unfold bind, getitem, ret. simpl.
      apply (download_one_saved env a n dir (serve a) t); auto. }
    rewrite Hbody, IH. now rewrite <- app_assoc.
Qed.

Lemma download_attachments_all_saved_witness :
  download_attachments file_server (VStr (u "P-7"))
    (VList (List.map (fun '(a, n) => VDict [(content_key, a); (filename_key, VStr n)])
              [(VStr (u "http://a/1"), u "one.txt"); (VStr (u "http://a/2"), u "two.txt")]))
    (u "data/P-7") []
  = (inr tt,
     [] ++ flat_map (fun '(a, n) =>
                       [AttachmentGet a;
                        WriteFile (path_join file_server (u "data/P-7") n) (content (serve_file a));
                        LogAttachmentSaved (VStr n)])
             [(VStr (u "http://a/1"), u "one.txt"); (VStr (u "http://a/2"), u "two.txt")]).
Proof.
  apply (download_attachments_all_saved file_server serve_file).
  - reflexivity.
  - reflexivity.
  - reflexivity.
Defined.

(** X23.  A file is written only for an answer with status 200: when no download
    is answered with status 200, [download_attachments] writes no file,
    whatever the attachments are. *)
Theorem download_writes_only_on_200 (env : environment) (key attachments : value)
    (dir : str) (t : trace) :
  (forall t' a r, http env t' (AttachmentGet a) = inr r -> status_code r <> 200) ->
  exists t',
    snd (download_attachments env key attachments dir t) = t ++ t'
    /\ Forall no_file_written t'.
Proof.
  intros Hno. revert t.
  change (extends no_file_written (download_attachments env key attachments dir)).
  unfold download_attachments. apply extends_bind; [apply extends_iterate|]. intros xs.
  apply extends_for_each. intros a.
  apply extends_bind; [apply extends_getitem|]. intros url.
  apply extends_bind; [apply extends_getitem|]. intros name.
  apply extends_try_except; [now apply extends_download_one_no_write|].
  intros e. now apply extends_emit.
Qed.

Lemma download_writes_only_on_200_witness :
  exists t',
    snd (download_attachments attachments_gone (VStr (u "P-7")) (VList three_attachments)
           (u "data/P-7") [])
    = [] ++ t'
    /\ Forall no_file_written t'.
Proof.
  apply (download_writes_only_on_200 attachments_gone).
  intros t' a r H. injection H as <-. simpl. lia.
Defined.

(** ** Field Normalizer: letter case *)

Lemma lower_char_space c : is_space (lower_char c) = is_space c.
Proof.
  unfold lower_char. destruct (is_upper c) eqn:E; [|reflexivity].
  assert (H1 : is_space c = false) by (revert E; char_class).
  assert (H2 : is_space (c + 32) = false) by (revert E; char_class).
  now rewrite H1, H2.
Qed.

Lemma lower_char_word c : is_word (lower_char c) = is_word c.
Proof.
  unfold lower_char. destruct (is_upper c) eqn:E; [|reflexivity].
  assert (H1 : is_word c = true) by (unfold is_word; now rewrite E, !orb_true_r).
  assert (H2 : is_word (c + 32) = true) by (revert E; char_class).
  now rewrite H1, H2.
Qed.

Lemma lower_char_idem c : lower_char (lower_char c) = lower_char c.
Proof.
  unfold lower_char. destruct (is_upper c) eqn:E.
  - destruct (is_upper (c + 32)) eqn:E'; [|reflexivity].
    exfalso. revert E E'. char_class.
  - now rewrite E.
Qed.

Lemma lower_char_ascii c : is_ascii c = true -> is_ascii (lower_char c) = true.
Proof.
  intros H. unfold lower_char. destruct (is_upper c) eqn:E; [|exact H].
  revert E. char_class.
Qed.

Lemma sub_runs_lower p s : forall b,
  (forall c, p (lower_char c) = p c) ->
  sub_runs p b (lower s) = lower (sub_runs p b s).
Proof.
  intros b Hp. revert b. induction s as [|c s IH]; intros b; [reflexivity|].
  simpl. fold (lower s). rewrite Hp. destruct (p c); [destruct b|]; simpl;
    fold (lower (sub_runs p true s)); fold (lower (sub_runs p false s)); now rewrite IH.
Qed.

Lemma sub_non_word_lower s : sub_non_word (lower s) = lower (sub_non_word s).
Proof.
  induction s as [|c s IH]; [reflexivity|]. simpl. fold (lower s).
  fold (sub_non_word (lower s)). fold (sub_non_word s). fold (lower (sub_non_word s)).
  rewrite IH, lower_char_word. now destruct (is_word c).
Qed.

Lemma lstrip_lower s : lstrip is_hyphen (lower s) = lower (lstrip is_hyphen s).
Proof.
  induction s as [|c s IH]; [reflexivity|]. simpl. fold (lower s).
  rewrite lower_char_hyphen. now destruct (is_hyphen c).
Qed.

Lemma lower_idem s : lower (lower s) = lower s.
Proof.
  induction s as [|c s IH]; [reflexivity|]. simpl. fold (lower s).
  fold (lower (lower s)). now rewrite lower_char_idem, IH.
Qed.

(** X11.  Two ASCII display names that differ only by the case of their letters
    get the same normalized name: the name of a string is the name of its
    lower-case form. *)
Theorem normalize_ignores_case (U : UnicodeData) (HA : UnicodeAscii U) (s : str) :
  forallb is_ascii s = true ->
  normalize_field_name (VStr (lower s)) = normalize_field_name (VStr s).
Proof.
  intros Ha. destruct s as [|c s]; [reflexivity|].
  assert (Hl : forallb is_ascii (lower (c :: s)) = true).
  { clear -Ha. induction (c :: s) as [|x l IH]; [reflexivity|]. simpl in *.
    apply andb_true_iff in Ha as [Hx Hl]. now rewrite lower_char_ascii, IH. }
  rewrite !normalize_ascii by (try exact Ha; try exact Hl; discriminate).
  unfold sub_spaces, sub_hyphens, strip_hyphens.
  rewrite (sub_runs_lower is_space) by apply lower_char_space.
  rewrite sub_non_word_lower.
  rewrite (sub_runs_lower is_hyphen) by apply lower_char_hyphen.
  rewrite lstrip_lower, lower_rstrip. apply lower_idem.
Qed.

Lemma normalize_ignores_case_witness :
  @normalize_field_name latin_unicode (VStr (lower (u "Root Cause")))
  = @normalize_field_name latin_unicode (VStr (u "Root Cause")).
Proof.
  apply (normalize_ignores_case latin_unicode latin_unicode_ascii). reflexivity.
Defined.

(** ** Page units: every record is written *)

Lemma json_documents_app t1 t2 :
  json_documents (t1 ++ t2) = json_documents t1 ++ json_documents t2.
Proof. unfold json_documents. apply flat_map_app. Qed.


Section StoringAll.
Context {U : UnicodeData}.
Variable env : environment.
Variable config : Config.

Lemma extends_download_attachments_events key atts dir :
  extends attachment_event (download_attachments env key atts dir).
Proof.
  unfold download_attachments. apply extends_bind; [apply extends_iterate|]. intros xs.
  apply extends_for_each. intros a.
  apply extends_bind; [apply extends_getitem|]. intros url.
  apply extends_bind; [apply extends_getitem|]. intros name.
  apply extends_try_except; [|intros e; now apply extends_emit].
  unfold download_one. apply extends_bind; [now apply extends_session_get|]. intros r.
  destruct (status_code r =? 200); [|now apply extends_emit].
  apply extends_bind; [apply extends_path_join|]. intros path.
  apply extends_bind; [|intros _; now apply extends_emit].
  intros t. destruct (open_error env t path).
  - exists []. split; [now rewrite app_nil_r | constructor].
  - exists [WriteFile path (content r)]. split; [reflexivity | now repeat constructor].
Qed.



End StoringAll.



(** A dynamic field whose display name is Attachment is moved under the key
    [attachment], which [save_issue] reads as the list of attachments: here
    the record is transformed, then refused by the storage after its JSON
    document is written. *)
Example attachment_name_collision :
  @process_issues latin_unicode remote_120 config_50
    [VDict [(key_key, VStr (u "P-9")); (fields_key, VDict [(customfield_1, VInt 5)])]]
    (VList [VDict [(id_key, VStr customfield_1); (name_key, VStr (u "Attachment"))]]) []
  = (inl TypeError,
     [Makedirs (u "data/P-9");
      WriteJson (u "data/P-9/P-9.json")
        (VDict [(key_key, VStr (u "P-9")); (fields_key, VDict [(attachment_key, VInt 5)])])]).
Proof. reflexivity. Qed.

Example rename_customfield_on_other_fields :
  rename_customfield (u "b") (u "n")
    {| issue := VDict [(fields_key, VList [])]; fields_metadata := VNone |}
  = (inr tt, {| issue := VDict [(fields_key, VList [])]; fields_metadata := VNone |})
  /\ fst (rename_customfield (u "b") (u "n")
            {| issue := VDict [(fields_key, VStr (u "abc"))]; fields_metadata := VNone |})
     = inl AttributeError
  /\ fst (rename_customfield (u "z") (u "n")
            {| issue := VDict [(fields_key, VStr (u "abc"))]; fields_metadata := VNone |})
     = inr tt.
Proof. repeat split. Qed.

(** ** Attachments: what each download leaves *)

Section DownloadEvents.
Variable env : environment.

Lemma download_body_events dir a t :
  well_formed_attachment a = true ->
  (file_url <- getitem a content_key ;;
   file_name <- getitem a filename_key ;;
   try_except (download_one env file_url file_name dir)
              (fun e => emit (LogAttachmentError file_name e))) t
  = (inr tt, t ++ download_events env dir a t).
Proof.
  intros Ha. destruct a as [| | | | |d]; try discriminate. simpl in Ha.
  apply andb_true_iff in Ha as [Hc Hn]. unfold dict_in in Hc, Hn.
  destruct (dict_get d content_key) as [url|] eqn:Eu; [|discriminate].
  destruct (dict_get d filename_key) as [name|] eqn:En; [|discriminate].
  unfold getitem, bind at 1. rewrite Eu. unfold ret at 1.
  unfold bind at 1. rewrite En. unfold ret at 1.
  unfold download_events, attachment_url, attachment_name, dict_get_or_none.
  rewrite Eu, En.
  unfold try_except, download_one, bind at 1, session_get.
  destruct (http env t (AttachmentGet url)) as [e|r].
  - unfold emit. now rewrite <- app_assoc.
  - destruct (status_code r =? 200).
    + unfold bind at 1, os_path_join.
      destruct name as [| | |s| |];
        try (unfold raise, emit; now rewrite <- app_assoc).
      unfold ret, bind.
      destruct (open_error env (t ++ [AttachmentGet url]) (path_join env dir s)) as [e|].
      * unfold emit. now rewrite <- app_assoc.
      * unfold emit. now rewrite <- !app_assoc.
    + unfold emit. now rewrite <- app_assoc.
Qed.

Lemma download_body_refuses dir a t :
  well_formed_attachment a = false ->
  exists e,
    (file_url <- getitem a content_key ;;
     file_name <- getitem a filename_key ;;
     try_except (download_one env file_url file_name dir)
                (fun e => emit (LogAttachmentError file_name e))) t
    = (inl e, t).
Proof.
  intros Ha. unfold bind, getitem.
  destruct a as [| | | | |d]; try (eexists; reflexivity).
  simpl in Ha. unfold dict_in in Ha.
  destruct (dict_get d content_key) as [url|]; [|eexists; reflexivity].
  destruct (dict_get d filename_key) as [name|]; [discriminate | eexists; reflexivity].
Qed.

Lemma download_all_events key dir atts : forall t,
  forallb well_formed_attachment atts = true ->
  download_attachments env key (VList atts) dir t
  = (inr tt, t ++ downloads_events env dir atts t).
Proof.
  unfold download_attachments, iterate, bind at 1, ret.
  induction atts as [|a atts IH]; intros t Hwf.
  - simpl. now rewrite app_nil_r.
  - simpl in Hwf. apply andb_true_iff in Hwf as [Ha Hwf].
    cbn [for_each downloads_events]. unfold bind at 1.
    rewrite (download_body_events dir a t Ha), (IH _ Hwf). now rewrite app_assoc.
Qed.

Lemma download_stops_at_refused key dir pre bad post : forall t,
  forallb well_formed_attachment pre = true ->
  well_formed_attachment bad = false ->
  exists e,
    download_attachments env key (VList (pre ++ bad :: post)) dir t
    = (inl e, t ++ downloads_events env dir pre t).
Proof.
  unfold download_attachments, iterate, bind at 1, ret.
  induction pre as [|a pre IH]; intros t Hwf Hbad.
  - destruct (download_body_refuses dir bad t Hbad) as [e He]. exists e.
    cbn [app for_each downloads_events]. unfold bind at 1. rewrite He.
    now rewrite app_nil_r.
  - simpl in Hwf. apply andb_true_iff in Hwf as [Ha Hwf].
    destruct (IH (t ++ download_events env dir a t) Hwf Hbad) as [e He]. exists e.
    cbn [app for_each downloads_events]. unfold bind at 1.
    rewrite (download_body_events dir a t Ha), He. now rewrite app_assoc.
Qed.

Lemma downloads_events_attempts dir atts : forall t,
  attachment_attempts (downloads_events env dir atts t) = List.map attachment_url atts.
Proof.
  induction atts as [|a atts IH]; intros t; [reflexivity|].
  cbn [downloads_events List.map]. rewrite attachment_attempts_app, IH. f_equal.
  unfold download_events.
  destruct (http env t _) as [e|r]; [reflexivity|].
  destruct (status_code r =? 200); [|reflexivity].
  destruct (attachment_name a); try reflexivity.
  destruct (open_error env _ _); reflexivity.
Qed.

(** A download that does not go through leaves its request and one warning
    or error line, and no file; one that goes through leaves its request,
    the file and the info line. *)
Lemma download_events_outcome dir a t :
  if download_succeeds env dir a t
  then exists n r,
         attachment_name a = VStr n
         /\ http env t (AttachmentGet (attachment_url a)) = inr r
         /\ download_events env dir a t
            = [AttachmentGet (attachment_url a);
               WriteFile (path_join env dir n) (content r);
               LogAttachmentSaved (VStr n)]
  else exists line,
         download_events env dir a t = [AttachmentGet (attachment_url a); line]
         /\ is_failure_line line.
Proof.
  unfold download_succeeds, download_events.
  destruct (http env t (AttachmentGet (attachment_url a))) as [e|r].
  - eexists. split; [reflexivity | exact I].
  - destruct (status_code r =? 200); simpl.
    + destruct (attachment_name a) as [| | |n| |];
        try (eexists; split; [reflexivity | exact I]).
      destruct (open_error env _ _) as [e|].
      * eexists. split; [reflexivity | exact I].
      * exists n, r. now repeat split.
    + eexists. split; [reflexivity | exact I].
Qed.

End DownloadEvents.

(** C8, as stated, does not hold for every record with a non-empty list of
    attachments: the two entries of a descriptor are read before the [try], so
    a first attachment without [content] makes [save_issue] raise [KeyError],
    and the second attachment is not requested, on a remote and a disk that
    refuse nothing. *)
Lemma attachment_isolation_counterexample :
  save_issue file_server config_50
    (VDict [(key_key, VStr (u "P-7"));
            (fields_key,
             VDict [(attachment_key,
                     VList [VDict [(filename_key, VStr (u "one.txt"))];
                            attachment "http://a/2" "two.txt"])])]) []
  = (inl (KeyError content_key),
     [Makedirs (u "data/P-7");
      WriteJson (u "data/P-7/P-7.json")
        (VDict [(key_key, VStr (u "P-7"));
                (fields_key,
                 VDict [(attachment_key,
                         VList [VDict [(filename_key, VStr (u "one.txt"))];
                                attachment "http://a/2" "two.txt"])])])])
  /\ ~ (forall (env : environment) (config : Config) (d f : dict) (key : str)
               (atts : list value),
          dict_get d key_key = Some (VStr key) ->
          dict_get d fields_key = Some (VDict f) ->
          dict_get f attachment_key = Some (VList atts) ->
          atts <> [] ->
          (forall t p, makedirs_error env t p = None) ->
          (forall t p, open_error env t p = None) ->
          fst (save_issue env config (VDict d) []) = inr tt
          /\ List.length (attachment_attempts (snd (save_issue env config (VDict d) [])))
             = List.length atts).
Proof.
  split; [reflexivity|]. intros H.
  destruct (H file_server config_50
              [(key_key, VStr (u "P-7"));
               (fields_key,
                VDict [(attachment_key,
                        VList [VDict [(filename_key, VStr (u "one.txt"))];
                               attachment "http://a/2" "two.txt"])])]
              [(attachment_key,
                VList [VDict [(filename_key, VStr (u "one.txt"))];
                       attachment "http://a/2" "two.txt"])]
              (u "P-7")
              [VDict [(filename_key, VStr (u "one.txt"))]; attachment "http://a/2" "two.txt"])
    as [Hr _]; try reflexivity; try discriminate.
Qed.

(** C8, amended.  For a record with a non-empty list of attachments, once
    its folder is made and its JSON document written:
    - when every descriptor holds [content] and [filename], [save_issue] ends
      without exception and what follows it in the page unit runs; the
      attachments are requested one by one, in order, and each leaves what
      [download_events] says: a download that goes wrong in any way (the
      request raises, the status is not 200, the file name is no string, the
      file cannot be opened) leaves its request and one warning or error
      line, and no file;
    - a descriptor that lacks [content] or [filename] is read before the
      [try]: [save_issue] raises there, the descriptors before it have been
      handled as above and the ones after it are not requested. *)
Theorem attachment_failures_swallowed (env : environment) (config : Config)
    (d f : dict) (key : str) (atts : list value) (t : trace) :
  let issue_dir := path_join env (ETL_OUTPUT_DIR config) key in
  let json_path := path_join env issue_dir (key ++ u ".json") in
  let t1 := (t ++ [Makedirs issue_dir]) ++ [WriteJson json_path (VDict d)] in
  dict_get d key_key = Some (VStr key) ->
  dict_get d fields_key = Some (VDict f) ->
  dict_get f attachment_key = Some (VList atts) ->
  atts <> [] ->
  makedirs_error env t issue_dir = None ->
  open_error env (t ++ [Makedirs issue_dir]) json_path = None ->
  (forallb well_formed_attachment atts = true ->
     save_issue env config (VDict d) t
     = (inr tt, t1 ++ downloads_events env issue_dir atts t1)
     /\ attachment_attempts (downloads_events env issue_dir atts t1)
        = List.map attachment_url atts
     /\ (forall next : M trace unit,
           (save_issue env config (VDict d) ;;; next) t
           = next (t1 ++ downloads_events env issue_dir atts t1)))
  /\ (forall a t0,
        if download_succeeds env issue_dir a t0
        then exists n r,
               attachment_name a = VStr n
               /\ http env t0 (AttachmentGet (attachment_url a)) = inr r
               /\ download_events env issue_dir a t0
                  = [AttachmentGet (attachment_url a);
                     WriteFile (path_join env issue_dir n) (content r);
                     LogAttachmentSaved (VStr n)]
        else exists line,
               download_events env issue_dir a t0 = [AttachmentGet (attachment_url a); line]
               /\ is_failure_line line)
  /\ (forall pre bad post,
        atts = pre ++ bad :: post ->
        forallb well_formed_attachment pre = true ->
        well_formed_attachment bad = false ->
        exists e,
          save_issue env config (VDict d) t
          = (inl e, t1 ++ downloads_events env issue_dir pre t1)
          /\ attachment_attempts (downloads_events env issue_dir pre t1)
             = List.map attachment_url pre).
Proof.
  intros issue_dir json_path t1 Hk Hf Ha Hne Hmk Hop.
  assert (Hsave : save_issue env config (VDict d) t
                  = download_attachments env (VStr key) (VList atts) issue_dir t1).
  { rewrite (save_issue_steps env config d key t Hk). fold issue_dir json_path.
    rewrite Hmk, Hop. fold t1.
    unfold bind at 1, dict_get_method at 1. rewrite Hf. unfold ret at 1.
    unfold bind at 1, dict_get_method. rewrite Ha. unfold ret at 1.
    destruct atts; [congruence | reflexivity]. }
  split; [|split].
  - intros Hwf.
    assert (E : save_issue env config (VDict d) t
                = (inr tt, t1 ++ downloads_events env issue_dir atts t1))
      by (rewrite Hsave; now apply download_all_events).
    split; [exact E|]. split; [apply downloads_events_attempts|].
    intros next. unfold bind. now rewrite E.
  - intros a t0. apply download_events_outcome.
  - intros pre bad post -> Hpre Hbad.
    destruct (download_stops_at_refused env (VStr key) issue_dir pre bad post t1 Hpre Hbad)
      as [e He].
    exists e. rewrite Hsave. split; [exact He | apply downloads_events_attempts].
Qed.

Lemma attachment_failures_swallowed_witness :
  save_issue failing_downloads config_50 (VDict issue_with_attachments) []
  = (inr tt,
     [Makedirs (u "data/P-7");
      WriteJson (u "data/P-7/P-7.json") (VDict issue_with_attachments);
      AttachmentGet (VStr (u "http://a/1"));
      LogAttachmentError (VStr (u "one.txt")) (OtherError 1);
      AttachmentGet (VStr (u "http://a/2"));
      LogAttachmentStatus (VStr (u "two.txt")) 404;
      AttachmentGet (VStr (u "http://a/3"));
      LogAttachmentError (VStr (u "three.txt")) (OtherError 3)])
  /\ attachment_attempts
       (downloads_events failing_downloads (u "data/P-7") three_attachments
          [Makedirs (u "data/P-7");
           WriteJson (u "data/P-7/P-7.json") (VDict issue_with_attachments)])
     = List.map attachment_url three_attachments.
Proof.
  destruct (attachment_failures_swallowed failing_downloads config_50 issue_with_attachments
              [(attachment_key, VList three_attachments)] (u "P-7") three_attachments []
              eq_refl eq_refl eq_refl ltac:(discriminate) eq_refl eq_refl)
    as [Hall _].
  destruct (Hall eq_refl) as [E [A _]].
  split; [exact E | exact A].
Defined.

(** ** Batch Orchestrator: the catalog of a page unit *)

Section UnitCatalog.
Context {U : UnicodeData}.
Variable env : environment.
Variable config : Config.

(** [save_issue] writes at most one JSON document, the record it is given,
    and has written it when it ends without exception. *)
Lemma save_issue_document i t :
  exists t',
    snd (save_issue env config i t) = t ++ t'
    /\ (json_documents t' = [] \/ json_documents t' = [i])
    /\ (fst (save_issue env config i t) = inr tt -> json_documents t' = [i]).
Proof.
  assert (Hstop : forall e, save_issue env config i t = (inl e, t) ->
    exists t', snd (save_issue env config i t) = t ++ t'
               /\ (json_documents t' = [] \/ json_documents t' = [i])
               /\ (fst (save_issue env config i t) = inr tt -> json_documents t' = [i])).
  { intros e He. exists []. rewrite He, app_nil_r. simpl.
    split; [reflexivity|]. split; [now left | discriminate]. }
  destruct i as [| | | | |d]; try (apply (Hstop AttributeError); reflexivity).
  destruct (dict_get d key_key) as [k|] eqn:Ek.
  2:{ apply (Hstop TypeError). unfold save_issue, bind at 1, dict_get_method.
      rewrite Ek. reflexivity. }
  destruct k as [| | |key| |];
    try (apply (Hstop TypeError); unfold save_issue, bind at 1, dict_get_method;
         rewrite Ek; reflexivity).
  rewrite (save_issue_steps env config d key t Ek).
  set (dir := path_join env (ETL_OUTPUT_DIR config) key).
  set (path := path_join env dir (key ++ u ".json")).
  destruct (makedirs_error env t dir) as [e|].
  { exists []. rewrite app_nil_r. simpl.
    split; [reflexivity|]. split; [now left | discriminate]. }
  destruct (open_error env (t ++ [Makedirs dir]) path) as [e|].
  { exists [Makedirs dir]. simpl. split; [reflexivity|]. split; [now left | discriminate]. }
  set (t1 := (t ++ [Makedirs dir]) ++ [WriteJson path (VDict d)]).
  assert (Hrest : exists t2,
    snd ((fields <- dict_get_method (VDict d) fields_key (VDict []) ;;
          attachments <- dict_get_method fields attachment_key (VList []) ;;
          if truthy attachments
          then download_attachments env (VStr key) attachments dir
          else emit LogNoAttachment) t1) = t1 ++ t2
    /\ json_documents t2 = []).
  { assert (Hext : extends (fun e => json_documents [e] = [])
      (fields <- dict_get_method (VDict d) fields_key (VDict []) ;;
       attachments <- dict_get_method fields attachment_key (VList []) ;;
       if truthy attachments
       then download_attachments env (VStr key) attachments dir
       else emit LogNoAttachment)).
    { apply extends_bind; [apply extends_get_method|]. intros fields.
      apply extends_bind; [apply extends_get_method|]. intros atts.
      destruct (truthy atts); [|now apply extends_emit].
      apply (extends_weaken attachment_event);
        [|apply extends_download_attachments_events].
      intros e He. destruct e; simpl in He; try contradiction; reflexivity. }
    destruct (Hext t1) as [t2 [E2 F2]]. exists t2. split; [exact E2|].
    clear -F2. induction F2 as [|e l He _ IH]; [reflexivity|].
    change (e :: l) with ([e] ++ l). now rewrite json_documents_app, He, IH. }
  destruct Hrest as [t2 [E2 J2]].
  exists ([Makedirs dir; WriteJson path (VDict d)] ++ t2).
  rewrite E2. unfold t1. rewrite <- !app_assoc. split; [reflexivity|].
  rewrite json_documents_app, J2. simpl. split; [now right | reflexivity].
Qed.

(** The JSON documents a page writes are the records of the page transformed
    with the catalog the loop was given, in order and without skipping one:
    all of them when the loop ends without exception, the first ones
    otherwise. *)
Lemma process_issues_documents issues meta : forall t,
  exists k t',
    snd (process_issues env config issues meta t) = t ++ t'
    /\ json_documents t' = List.map (transformed meta) (firstn k issues)
    /\ (fst (process_issues env config issues meta t) = inr tt -> k = List.length issues).
Proof.
  induction issues as [|raw issues IH]; intros t.
  - exists 0%nat, []. rewrite app_nil_r. now repeat split.
  - simpl process_issues. unfold transformed.
    pose proof (transform_keeps_catalog raw meta) as Hc.
    destruct (run_transform raw meta) as [[e|[]] st] eqn:Et.
    + exists 0%nat, []. rewrite app_nil_r. simpl. split; [reflexivity|].
      split; [reflexivity | discriminate].
    + simpl in Hc. rewrite Hc.
      destruct (save_issue_document (issue st) t) as [t1 [E1 [J1 S1]]].
      cbv zeta. unfold bind.
      destruct (save_issue env config (issue st) t) as [[e|[]] s1]; simpl in E1, S1; subst s1.
      * destruct J1 as [J1|J1].
        -- exists 0%nat, t1. simpl. split; [reflexivity|]. split; [exact J1 | discriminate].
        -- exists 1%nat, t1. simpl. rewrite Et. simpl.
           split; [reflexivity|]. split; [exact J1 | discriminate].
      * destruct (IH (t ++ t1)) as [k [t2 [E2 [J2 S2]]]].
        exists (S k), (t1 ++ t2). rewrite E2, app_assoc. split; [reflexivity|].
        rewrite json_documents_app, (S1 eq_refl), J2. simpl. rewrite Et. simpl.
        split; [reflexivity|]. intros Hr. now rewrite (S2 Hr).
Qed.

(** The loop of a page unit runs on the records of its page with the catalog
    the unit has just fetched. *)
Lemma run_batch_with_fetched_catalog start t meta batch issues :
  let t1 := (t ++ [LogBatchStart start]) ++ [FieldCatalog] in
  let t2 := t1 ++ [SearchPage start (BATCH_SIZE config)] in
  fst (get_metadata env (t ++ [LogBatchStart start])) = inr meta ->
  fst (extract_batch_issues env start (BATCH_SIZE config) t1) = inr batch ->
  fst (iterate batch t2) = inr issues ->
  run_batch_with_log env config start t = process_issues env config issues meta t2.
Proof.
  intros t1 t2 Hm Hb Hi.
  pose proof (fields_metadata_trace env (t ++ [LogBatchStart start])) as E1.
  pose proof (extract_trace env start (BATCH_SIZE config) t1) as E2.
  assert (Eu : run_batch_with_log env config start t
               = run_batch env config start (t ++ [LogBatchStart start])) by reflexivity.
  rewrite Eu. unfold run_batch, bind at 1. fold (get_metadata env) in E1.
  destruct (get_metadata env (t ++ [LogBatchStart start])) as [r1 s1].
  simpl in Hm, E1. subst r1 s1. fold t1. unfold bind at 1.
  destruct (extract_batch_issues env start (BATCH_SIZE config) t1) as [r2 s2].
  simpl in Hb, E2. subst r2 s2. fold t2. unfold bind at 1.
  unfold iterate in Hi |- *.
  destruct batch; simpl in Hi; try discriminate; injection Hi as <-; reflexivity.
Qed.

End UnitCatalog.

(** C1, amended.  For a count and a page size below [2^53], the field
    catalog is fetched once by each page unit, so as many times in a run as
    there are pages.  In a page unit, the catalog that the unit has fetched is
    the one given to the transform of every record of its page: the unit is
    the loop over its records run with that catalog, and the JSON documents
    it writes are its records transformed with that catalog, in order, all of
    them when the unit ends without exception.  A transform leaves the
    catalog it receives as it was. *)
Theorem catalog_fetched_per_page_unit (U : UnicodeData) (env : environment)
    (config : Config) (t : trace) (n : Z) :
  fst (countTotalIussues env config (JIRA_PROJECT config) t) = inr (VInt n) ->
  0 <= n < 2 ^ 53 ->
  0 < BATCH_SIZE config < 2 ^ 53 ->
  (exists t',
     snd (run env config t) = t ++ SearchCount (JIRA_PROJECT config) :: t'
     /\ catalog_fetches t' = Z.to_nat (ceil_div n (BATCH_SIZE config))
     /\ catalog_fetches t' = List.length (launches t'))
  /\ (forall start t0 meta batch issues,
        let t1 := (t0 ++ [LogBatchStart start]) ++ [FieldCatalog] in
        let t2 := t1 ++ [SearchPage start (BATCH_SIZE config)] in
        fst (get_metadata env (t0 ++ [LogBatchStart start])) = inr meta ->
        fst (extract_batch_issues env start (BATCH_SIZE config) t1) = inr batch ->
        fst (iterate batch t2) = inr issues ->
        run_batch_with_log env config start t0 = process_issues env config issues meta t2
        /\ exists k t'',
             snd (run_batch_with_log env config start t0) = t2 ++ t''
             /\ json_documents t'' = List.map (transformed meta) (firstn k issues)
             /\ (fst (run_batch_with_log env config start t0) = inr tt ->
                 k = List.length issues))
  /\ (forall i m, fields_metadata (snd (run_transform i m)) = m).
Proof.
  intros Hc Hn HB. split; [|split].
  - destruct (run_trace env config t n Hc ltac:(lia)) as [t' [E [L [C _]]]].
    exists t'. split; [exact E|]. split; [exact C|].
    rewrite C, L. unfold start_indexes. now rewrite length_map, length_seq.
  - intros start t0 meta batch issues t1 t2 Hm Hb Hi.
    pose proof (run_batch_with_fetched_catalog env config start t0 meta batch issues Hm Hb Hi)
      as Eq.
    split; [exact Eq|]. fold t1 t2 in Eq. rewrite Eq.
    apply process_issues_documents.
  - apply transform_keeps_catalog.
Qed.

Lemma catalog_fetched_per_page_unit_witness :
  (exists t',
     snd (@run latin_unicode remote_120 config_50 [])
     = [] ++ SearchCount (JIRA_PROJECT config_50) :: t'
     /\ catalog_fetches t' = Z.to_nat (ceil_div 120 (BATCH_SIZE config_50))
     /\ catalog_fetches t' = List.length (launches t'))
  /\ (forall start t0 meta batch issues,
        let t1 := (t0 ++ [LogBatchStart start]) ++ [FieldCatalog] in
        let t2 := t1 ++ [SearchPage start (BATCH_SIZE config_50)] in
        fst (get_metadata remote_120 (t0 ++ [LogBatchStart start])) = inr meta ->
        fst (extract_batch_issues remote_120 start (BATCH_SIZE config_50) t1) = inr batch ->
        fst (iterate batch t2) = inr issues ->
        @run_batch_with_log latin_unicode remote_120 config_50 start t0
        = @process_issues latin_unicode remote_120 config_50 issues meta t2
        /\ exists k t'',
             snd (@run_batch_with_log latin_unicode remote_120 config_50 start t0) = t2 ++ t''
             /\ json_documents t''
                = List.map (@transformed latin_unicode meta) (firstn k issues)
             /\ (fst (@run_batch_with_log latin_unicode remote_120 config_50 start t0) = inr tt ->
                 k = List.length issues))
  /\ (forall i m, fields_metadata (snd (@run_transform latin_unicode i m)) = m).
Proof.
  apply (catalog_fetched_per_page_unit latin_unicode remote_120 config_50 [] 120).
  - reflexivity.
  - lia.
  - simpl. lia.
Defined.

(** On a remote whose field catalog names [customfield_100], a page unit
    writes its record transformed with the catalog it has fetched. *)
Example page_unit_uses_fetched_catalog :
  json_documents
    (snd (@run_batch_with_log latin_unicode
            {| http := fun _ request =>
                 match request with
                 | SearchPage _ _ =>
                     inr (answer (VDict [(issues_key,
                            VList [VDict [(key_key, VStr (u "P-1"));
                                          (fields_key, VDict [(customfield_100, VStr (u "X"))])]])]))
                 | FieldCatalog => inr (answer root_cause_catalog)
                 | _ => inl (OtherError 0)
                 end;
               makedirs_error := fun _ _ => None;
               open_error := fun _ _ => None;
               path_join := fun a b => a ++ u "/" ++ b |}
            config_50 0 []))
  = [VDict [(key_key, VStr (u "P-1")); (fields_key, VDict [(u "root-cause", VStr (u "X"))])]].
Proof. reflexivity. Qed.
